(** * ipfs-daemon: the daemon supervisor of [src/ipfs-daemon.js]

    A shallow embedding of the class [IpfsDaemon]: its constructor, the two
    promise-returning phases [_initDaemon] and [_startDaemon], the public
    [stop] and the private [_handleShutdown], together with the callbacks
    the constructor hands to the hosting process and to the daemon
    controller.  JavaScript objects used as dictionaries are finite maps,
    the state of the supervisor and of the hosting process is threaded
    explicitly, and [throw] is an outcome of its own. *)

From Stdlib Require Import Ascii String.
From stdpp Require Import base option list strings gmap fin_maps.

Local Open Scope string_scope.
Set Warnings "-register-all".

(** ** JavaScript values that occur in a configuration *)

Inductive JsVal : Type :=
  | VUndefined
  | VNull
  | VBool (b : bool)
  | VStr (s : string)
  | VArr (l : list JsVal)
  | VObj (m : gmap string JsVal)
  | VOpaque (what : string).  (* a function or a host object *)

(** A plain object used as a dictionary. *)
Abbreviation Obj := (gmap string JsVal).

(** [o.k]: reading a missing property gives [undefined]. *)
Definition get (o : Obj) (k : string) : JsVal := default VUndefined (o !! k).

(** [Object.assign(target, source)]: every own enumerable property of the
    source is written to the target, in turn; a [null] or [undefined]
    source is skipped. *)
Definition Object_assign (target : Obj) (source : option Obj) : Obj :=
  match source with
  | None => target
  | Some src => map_fold (λ k v acc, <[k:=v]> acc) target src
  end.

(** [a || b] on strings read from the environment: an unset or empty
    variable is falsy. *)
Definition or_else (a : option string) (b : string) : string :=
  match a with
  | Some s => if decide (s = "") then b else s
  | None => b
  end.

(** The module-level constant [defaultOptions]; [env] is [process.env] at
    the time the module is loaded. *)
Definition defaultOptions (env : gmap string string) : Obj :=
  {[ "IpfsDataDir" := VStr (or_else (env !! "IPFS_PATH") "./ipfs");
     "LogDirectory" := VStr "/tmp";
     "Addresses" := VObj {[ "API" := VStr "/ip4/127.0.0.1/tcp/5001";
                            "Swarm" := VArr [VStr "/ip4/0.0.0.0/tcp/4001"];
                            "Gateway" := VStr "/ip4/0.0.0.0/tcp/8080" ]};
     "Flags" := VArr [VStr "--enable-pubsub-experiment"] ]}.

(** Lines 37-39 of the constructor:
    [let opts = Object.assign({}, defaultOptions); Object.assign(opts, options)]. *)
Definition merge_options (env : gmap string string) (options : option Obj) : Obj :=
  let opts := Object_assign ∅ (Some (defaultOptions env)) in
  Object_assign opts options.

(** ** Strings: conversion and literal search *)

Definition nl : string := String "010"%char EmptyString.

Fixpoint join (sep : string) (l : list string) : string :=
  match l with
  | [] => ""
  | [x] => x
  | x :: rest => x +:+ sep +:+ join sep rest
  end.

(** [String(v)], as a template literal applies it to an interpolated
    value.  The text an opaque value converts to is not modelled; its tag
    stands for it. *)
Fixpoint to_string (v : JsVal) : string :=
  match v with
  | VUndefined => "undefined"
  | VNull => "null"
  | VBool true => "true"
  | VBool false => "false"
  | VStr s => s
  | VArr l =>
      join "," (List.map (λ x, match x with
                               | VUndefined | VNull => ""
                               | _ => to_string x
                               end) l)
  | VObj _ => "[object Object]"
  | VOpaque what => what
  end.

(** Position of the first occurrence of the literal [pat] in [s]. *)
Fixpoint find_literal (pat s : string) : option nat :=
  if String.prefix pat s then Some 0
  else match s with
       | EmptyString => None
       | String _ s' => S <$> find_literal pat s'
       end.

(** [s.match(pat)] for a pattern without metacharacters, as are both
    patterns of the source (['ipfs repo needs migration'], converted to a
    regular expression by [match], and [/non-zero exit code 255/]): [null],
    or a match array whose element 0 is the matched text. *)
Definition js_match (s pat : string) : option string :=
  i ← find_literal pat s; Some (String.substring i (String.length pat) s).

(** [str.split('\n')]. *)
Fixpoint split_lines (s : string) : list string :=
  match s with
  | EmptyString => [""]
  | String c s' =>
      if decide (c = "010"%char) then "" :: split_lines s'
      else match split_lines s' with
           | line :: rest => String c line :: rest
           | [] => [String c ""]
           end
  end.

(** ** Errors and thrown values *)

Record JsError := mkError { err_name : string; err_message : string }.

(** What a [throw], a promise rejection or an ['error'] event carries:
    an [Error] object, or a bare string (line 99 rejects with a string). *)
Inductive Thrown :=
  | TErr (e : JsError)
  | TStr (s : string).

(** [Error.prototype.toString]. *)
Definition Error_toString (e : JsError) : string :=
  if decide (err_name e = "") then err_message e
  else if decide (err_message e = "") then err_name e
  else err_name e +:+ ": " +:+ err_message e.

(** [String(error)]. *)
Definition String_of (t : Thrown) : string :=
  match t with
  | TErr e => Error_toString e
  | TStr s => s
  end.

Definition TypeError (msg : string) : Thrown := TErr (mkError "TypeError" msg).
Definition ReferenceError (ident : string) : Thrown :=
  TErr (mkError "ReferenceError" (ident +:+ " is not defined")).

(** ** The filesystem, as [fs.existsSync] and [mkdirp.sync] see it *)

Inductive Kind := File | Dir.

(** A resolved absolute path: its components below the root. *)
Abbreviation Path := (list string).

Record FS := mkFS {
  entries : gmap Path Kind;
  denied : gset Path  (* directories in which nothing may be created *)
}.

Definition kind_of (fs : FS) (p : Path) : option Kind :=
  match p with
  | [] => Some Dir
  | _ => entries fs !! p
  end.

Definition is_dir (fs : FS) (p : Path) : bool :=
  match kind_of fs p with Some Dir => true | _ => false end.

(** The text between the slashes of a path string. *)
Fixpoint segments (s : string) : list string :=
  match s with
  | EmptyString => [""]
  | String c s' =>
      if decide (c = "/"%char) then "" :: segments s'
      else match segments s' with
           | seg :: rest => String c seg :: rest
           | [] => [String c ""]
           end
  end.

(** One step of path normalisation: empty and [.] segments vanish, [..]
    drops the last component. *)
Definition push_segment (acc : Path) (seg : string) : Path :=
  if decide (seg = "") then acc
  else if decide (seg = ".") then acc
  else if decide (seg = "..") then removelast acc
  else (acc ++ [seg])%list.

(** [path.resolve(s)] relative to the working directory [cwd]. *)
Definition path_resolve (cwd : Path) (s : string) : Path :=
  let base := if String.prefix "/" s then [] else cwd in
  foldl push_segment base (segments s).

(** The path as the operating system resolves it, segment by segment
    from [cur]: a segment is looked up in a directory that exists, [..]
    included, so that [zz/..] resolves only where [zz] is a directory.
    The result is the place the path names, which may not exist. *)
Fixpoint os_walk (fs : FS) (cur : Path) (segs : list string) : option Path :=
  match segs with
  | [] => Some cur
  | seg :: rest =>
      if is_dir fs cur
      then os_walk fs (push_segment cur seg) rest
      else None
  end.

(** Where the resolution of the path string [s] starts. *)
Definition start_of (cwd : Path) (s : string) : Path :=
  if String.prefix "/" s then [] else cwd.

(** The place the path string [s] names for the system, if it resolves;
    the empty string names nothing. *)
Definition os_resolve (fs : FS) (cwd : Path) (s : string) : option Path :=
  if decide (s = "") then None
  else os_walk fs (start_of cwd s) (segments s).

(** Whether the path string [s] names something that exists. *)
Definition exists_path (fs : FS) (cwd : Path) (s : string) : bool :=
  match os_resolve fs cwd s with
  | Some q => bool_decide (is_Some (kind_of fs q))
  | None => false
  end.

(** [path.normalize]: empty and [.] segments vanish; [..] drops the
    segment before it, stays in front of a relative path and vanishes at
    the root. *)
Definition normal_push (above : bool) (acc : list string) (seg : string) : list string :=
  if decide (seg = "") then acc
  else if decide (seg = ".") then acc
  else if decide (seg = "..") then
    match last acc with
    | Some x => if decide (x = "..") then (acc ++ [".."])%list else removelast acc
    | None => if above then [".."] else []
    end
  else (acc ++ [seg])%list.

Definition path_normalize (s : string) : string :=
  if decide (s = "") then "."
  else
    let absolute := String.prefix "/" s in
    let trailing := bool_decide (last (segments s) = Some "") in
    let body := join "/" (foldl (normal_push (negb absolute)) [] (segments s)) in
    let body := if decide (body = "") then (if absolute then "" else ".") else body in
    let body := if decide (body = "") then body
                else if trailing then body +:+ "/" else body in
    if absolute then "/" +:+ body else body.

(** [mkdirp.sync]: every missing component from [base] down is created;
    a regular file in the way, or a directory that refuses new entries,
    makes it throw the error of the [mkdir] that met it. *)
Fixpoint mkdirp_from (base : Path) (rest : list string) (fs : FS) : Thrown + FS :=
  match rest with
  | [] => inr fs
  | c :: rest' =>
      let q := (base ++ [c])%list in
      match kind_of fs q with
      | Some Dir => mkdirp_from q rest' fs
      | Some File =>
          inl (TErr (mkError "Error"
                 match rest' with
                 | [] => "EEXIST: file already exists, mkdir '/" +:+ join "/" q +:+ "'"
                 | _ => "ENOTDIR: not a directory, mkdir '/"
                          +:+ join "/" (q ++ rest')%list +:+ "'"
                 end))
      | None =>
          if decide (base ∈ denied fs)
          then inl (TErr (mkError "Error" ("EACCES: permission denied, mkdir '/" +:+ join "/" q +:+ "'")))
          else mkdirp_from q rest' (mkFS (<[q:=Dir]> (entries fs)) (denied fs))
      end
  end.

(** ** The hosting process *)

Inductive Sig := INT | TERM.

(** The events of [process] that have listeners. *)
Inductive ProcEvent :=
  | SIGINT
  | SIGTERM
  | uncaughtException
  | other_event (name : string).

Definition sig_event (sig : Sig) : ProcEvent :=
  match sig with INT => SIGINT | TERM => SIGTERM end.

Global Instance ProcEvent_eq_dec : EqDecision ProcEvent.
Proof. solve_decision. Defined.

(** The listeners a process can hold: the two kinds of closure the
    constructor of instance [inst] registers, and listeners of other code. *)
Inductive Listener :=
  | LShutdownRef (inst : nat)   (* [() => this._handleShutdown], lines 52-53 *)
  | LOnUncaught (inst : nat)    (* [(error) => { ... }], lines 56-63 *)
  | LForeign (id : nat).

Global Instance Listener_eq_dec : EqDecision Listener.
Proof. solve_decision. Defined.

Inductive ExitReason :=
  | ExitUncaught (e : Thrown)     (* an exception nobody listens for *)
  | ExitSignal (sig : Sig).       (* default action of a signal *)

Record Process := mkProcess {
  fs : FS;
  cwd : Path;
  logfile : option string;                  (* set by [Logger.setLogfile] *)
  listeners : list (ProcEvent * Listener);  (* in registration order *)
  exited : option ExitReason;
  log_writer : bool                         (* the logger has its file open *)
}.

(** ** The external collaborators *)

(** The controller object [ipfsd.local] hands to its callback. *)
Record Node := mkNode { node_id : nat; node_path : string }.

(** The value [startDaemon] hands to its callback; [apiPort] in its
    string form. *)
Record IpfsHandle := mkIpfs { apiHost : string; apiPort : string }.

(** The client [IpfsApi(host, port)] builds. *)
Record ApiClient := mkClient { client_host : string; client_port : string }.

Definition IpfsApi (host port : string) : ApiClient := mkClient host port.

(** ** The supervisor and its run *)

(** The fields of an [IpfsDaemon] object.  [Object.assign(this, client)]
    (line 120) copies the operations of the client onto the object; they
    are kept together in [api], apart from the four fields the class
    itself assigns. *)
Record Supervisor := mkSupervisor {
  GatewayAddress : option string;   (* [None] is [null] *)
  APIAddress : option string;
  _options : option Obj;
  _daemon : option Node;            (* [None] is [null] or [undefined] *)
  api : option ApiClient
}.

Inductive SupEvent :=
  | EvReady
  | EvError (e : Thrown).

Inductive Level := LDebug | LError.

Inductive LogArg :=
  | LText (s : string)
  | LNullable (o : option string)
  | LThrown (e : Thrown).

(** What the supervisor does to the world outside its own fields, in the
    order it does it.  A call of the logger is recorded whatever the log
    level lets through. *)
Inductive Effect :=
  | EMkdirp (dir : string)                    (* [mkdirp.sync(dir)] *)
  | ELocal (dir : JsVal) (opts : option Obj)  (* [ipfsd.local(dir, opts, cb)] *)
  | EInit (d : Node) (directory : JsVal)      (* [d.init({directory}, cb)] *)
  | EStartDaemon (d : Node) (flags : JsVal)   (* [d.startDaemon(flags, cb)] *)
  | EStopDaemon (d : Node)                    (* [d.stopDaemon()] *)
  | ELog (lvl : Level) (args : list LogArg)   (* [logger.debug], [logger.error] *)
  | EEmit (ev : SupEvent).                    (* [this.emit(...)] *)

(** A promise is settled at most once. *)
Inductive PState :=
  | Pending
  | Fulfilled
  | Rejected (e : Thrown).

(** Where the chain of lines 66-69 stands:
    [_initDaemon().then(start).then(ready).catch(error)]. *)
Inductive Chain :=
  | AwaitInit
  | AwaitStart
  | Settled.

Record World := mkWorld {
  this : Supervisor;
  inst : nat;                 (* identity of the object *)
  initP : PState;             (* the promise of [_initDaemon] *)
  startP : option PState;     (* the promise of [_startDaemon], once called *)
  chain : Chain;
  trace : list Effect;        (* oldest first *)
  proc : Process;
  ready_thrower : option Thrown
    (* what the first listener of ['ready'] that throws, if the holder of
       the object registered one, throws *)
}.

(** ** Statements: state passing with [throw] *)

Inductive Outcome (A : Type) :=
  | Ret (a : A) (w : World)
  | Throw (e : Thrown) (w : World).
Arguments Ret {A} a w.
Arguments Throw {A} e w.

Definition M (A : Type) : Type := World → Outcome A.

Global Instance M_ret : MRet M := λ A a w, Ret a w.
Global Instance M_bind : MBind M := λ A B f m w,
  match m w with
  | Ret a w' => f a w'
  | Throw e w' => Throw e w'
  end.

Definition throw {A} (e : Thrown) : M A := λ w, Throw e w.

Definition read {A} (f : World → A) : M A := λ w, Ret (f w) w.

(** The state a statement leaves behind, however it ends. *)
Definition world_of {A} (o : Outcome A) : World :=
  match o with Ret _ w => w | Throw _ w => w end.

Definition with_this (f : Supervisor → Supervisor) (w : World) : World :=
  mkWorld (f (this w)) (inst w) (initP w) (startP w) (chain w) (trace w) (proc w)
    (ready_thrower w).
Definition with_initP (p : PState) (w : World) : World :=
  mkWorld (this w) (inst w) p (startP w) (chain w) (trace w) (proc w) (ready_thrower w).
Definition with_startP (p : option PState) (w : World) : World :=
  mkWorld (this w) (inst w) (initP w) p (chain w) (trace w) (proc w) (ready_thrower w).
Definition with_chain (c : Chain) (w : World) : World :=
  mkWorld (this w) (inst w) (initP w) (startP w) c (trace w) (proc w) (ready_thrower w).
Definition with_trace (f : list Effect → list Effect) (w : World) : World :=
  mkWorld (this w) (inst w) (initP w) (startP w) (chain w) (f (trace w)) (proc w)
    (ready_thrower w).
Definition with_proc (f : Process → Process) (w : World) : World :=
  mkWorld (this w) (inst w) (initP w) (startP w) (chain w) (trace w) (f (proc w))
    (ready_thrower w).
Definition with_ready_thrower (t : option Thrown) (w : World) : World :=
  mkWorld (this w) (inst w) (initP w) (startP w) (chain w) (trace w) (proc w) t.

Definition with_fs (f : FS) (p : Process) : Process :=
  mkProcess f (cwd p) (logfile p) (listeners p) (exited p) (log_writer p).
Definition with_logfile (l : option string) (p : Process) : Process :=
  mkProcess (fs p) (cwd p) l (listeners p) (exited p) (log_writer p).
Definition with_listeners (f : list (ProcEvent * Listener) → list (ProcEvent * Listener))
    (p : Process) : Process :=
  mkProcess (fs p) (cwd p) (logfile p) (f (listeners p)) (exited p) (log_writer p).
Definition with_exited (r : option ExitReason) (p : Process) : Process :=
  mkProcess (fs p) (cwd p) (logfile p) (listeners p) r (log_writer p).

Definition set_GatewayAddress (v : option string) (s : Supervisor) : Supervisor :=
  mkSupervisor v (APIAddress s) (_options s) (_daemon s) (api s).
Definition set_APIAddress (v : option string) (s : Supervisor) : Supervisor :=
  mkSupervisor (GatewayAddress s) v (_options s) (_daemon s) (api s).
Definition set_options (v : option Obj) (s : Supervisor) : Supervisor :=
  mkSupervisor (GatewayAddress s) (APIAddress s) v (_daemon s) (api s).
Definition set_daemon (v : option Node) (s : Supervisor) : Supervisor :=
  mkSupervisor (GatewayAddress s) (APIAddress s) (_options s) v (api s).
Definition set_api (v : option ApiClient) (s : Supervisor) : Supervisor :=
  mkSupervisor (GatewayAddress s) (APIAddress s) (_options s) (_daemon s) v.

(** [this.field = v]. *)
Definition assign (f : Supervisor → Supervisor) : M unit :=
  λ w, Ret tt (with_this f w).

Definition effect (e : Effect) : M unit :=
  λ w, Ret tt (with_trace (λ t, (t ++ [e])%list) w).

(** Line 13 sets the level of the logger from the variable [LOG] of the
    environment, [ERROR] without it.  The process is taken to run at that
    default: a call of [logger.debug] is below the level and writes
    nothing; it is recorded all the same. *)
Definition logger_debug (args : list LogArg) : M unit := effect (ELog LDebug args).

(** The first message that passes the level makes the logger open its log
    file, when one is set, and keep it open.  Opening fails where the
    path does not resolve (the directory of the file is missing), where it
    names a directory, and where the file is missing and may not be
    created. *)
Definition open_log (p : Process) : Thrown + Process :=
  if log_writer p then inr p
  else match logfile p with
       | None => inr p
       | Some file =>
           let failure code :=
             inl (TErr (mkError "Error" (code +:+ ", open '" +:+ file +:+ "'"))) in
           match os_resolve (fs p) (cwd p) file with
           | None => failure "ENOENT: no such file or directory"
           | Some q =>
               match kind_of (fs p) q with
               | Some Dir => failure "EISDIR: illegal operation on a directory"
               | Some File =>
                   inr (mkProcess (fs p) (cwd p) (logfile p) (listeners p) (exited p) true)
               | None =>
                   if decide (removelast q ∈ denied (fs p))
                   then failure "EACCES: permission denied"
                   else inr (mkProcess (mkFS (<[q:=File]> (entries (fs p))) (denied (fs p)))
                               (cwd p) (logfile p) (listeners p) (exited p) true)
               end
           end
       end.

(** [logger.error]: the message is written to the log file, which is
    opened first if need be; a file that cannot be opened makes the call
    throw. *)
Definition logger_error (args : list LogArg) : M unit :=
  λ w, match open_log (proc w) with
       | inr p' => Ret tt (with_trace (λ t, (t ++ [ELog LError args])%list)
                                      (with_proc (λ _, p') w))
       | inl e => Throw e w
       end.

(** [this._daemon.prop]: a [TypeError] when [this._daemon] is [null] or
    [undefined]. *)
Definition deref_daemon (prop : string) : M Node :=
  λ w, match _daemon (this w) with
       | Some d => Ret d w
       | None => Throw (TypeError ("Cannot read property '" +:+ prop +:+ "' of null")) w
       end.

(** [this._options.prop], likewise. *)
Definition deref_options (prop : string) : M JsVal :=
  λ w, match _options (this w) with
       | Some o => Ret (get o prop) w
       | None => Throw (TypeError ("Cannot read property '" +:+ prop +:+ "' of null")) w
       end.

(** [v.prop] on an arbitrary value. *)
Definition get_prop (v : JsVal) (prop : string) : M JsVal :=
  match v with
  | VUndefined => throw (TypeError ("Cannot read property '" +:+ prop +:+ "' of undefined"))
  | VNull => throw (TypeError ("Cannot read property '" +:+ prop +:+ "' of null"))
  | VObj o => mret (get o prop)
  | _ => mret VUndefined
  end.

(** Reading the identifier [x] where the bindings [scope] are visible. *)
Definition resolve_identifier (scope : list (string * JsVal)) (x : string) : M JsVal :=
  match list_find (λ b, b.1 = x) scope with
  | Some (_, (_, v)) => mret v
  | None => throw (ReferenceError x)
  end.

(** [process.on(ev, l)] and [process.removeAllListeners(ev)]. *)
Definition process_on (ev : ProcEvent) (l : Listener) : M unit :=
  λ w, Ret tt (with_proc (with_listeners (λ ls, (ls ++ [(ev, l)])%list)) w).

Definition process_removeAllListeners (ev : ProcEvent) : M unit :=
  λ w, Ret tt (with_proc (with_listeners (filter (λ el, el.1 ≠ ev))) w).

(** [resolve] and [reject] of the two promises: the first call settles,
    later ones are ignored. *)
Definition settle_init (p : PState) : M unit :=
  λ w, Ret tt (match initP w with Pending => with_initP p w | _ => w end).

Definition settle_start (p : PState) : M unit :=
  λ w, Ret tt (match startP w with Some Pending => with_startP (Some p) w | _ => w end).

(** [for (x of l) body(x)]. *)
Fixpoint forEach {A} (body : A → M unit) (l : list A) : M unit :=
  match l with
  | [] => mret tt
  | x :: rest => body x ;; forEach body rest
  end.

(** ** The methods of [IpfsDaemon] *)

(** Lines 132-143. *)
Definition _handleShutdown : M unit :=
  logger_debug [LText "Shutting down..."] ;;
  d ← deref_daemon "stopDaemon" ;
  effect (EStopDaemon d) ;;
  assign (set_GatewayAddress None) ;;
  assign (set_APIAddress None) ;;
  assign (set_options None) ;;
  assign (set_daemon None) ;;
  process_removeAllListeners SIGINT ;;
  process_removeAllListeners SIGTERM ;;
  process_removeAllListeners uncaughtException ;;
  logger_debug [LText "IPFS daemon finished"].

(** Lines 72-74. *)
Definition stop : M unit := _handleShutdown.

(** What a listener hands back to the emitter that called it. *)
Inductive Returned :=
  | RUndefined
  | RMethod (name : string).  (* a function value, not called *)

(** Lines 52-53: the body of [() => this._handleShutdown] is the method
    itself, as a value; the arrow function returns it. *)
Definition on_signal : M Returned := mret (RMethod "_handleShutdown").

(** Lines 56-63. *)
Definition on_uncaughtException (error : Thrown) : M Returned :=
  let match_ := js_match (String_of error) "non-zero exit code 255" in
  match match_ with
  | Some _ => _handleShutdown
  | None => logger_error [LThrown error]
  end ;;
  mret RUndefined.

(** [new Promise(executor)]: the executor runs at once; what it throws
    rejects the promise. *)
Definition new_promise (pending : World → World) (reject : Thrown → M unit)
    (executor : M unit) : M unit :=
  λ w, match executor (pending w) with
       | Ret _ w' => Ret tt w'
       | Throw e w' => reject e w'
       end.

(** Lines 76-78: [_initDaemon] up to the call of [ipfsd.local]; the rest
    of its body is the two callbacks below. *)
Definition _initDaemon : M unit :=
  new_promise (with_initP Pending) (λ e, settle_init (Rejected e))
    (dir ← deref_options "IpfsDataDir";
     opts ← read (λ w, _options (this w));
     effect (ELocal dir opts)).

(** Lines 78-87: the callback of [ipfsd.local]. *)
Definition local_callback (err : option JsError) (node : option Node) : M unit :=
  match err with
  | Some e => settle_init (Rejected (TErr e))
  | None => mret tt
  end ;;
  assign (set_daemon node) ;;
  logger_debug [LText "Initializing IPFS daemon"] ;;
  match node with
  | Some n => logger_debug [LText ("Using IPFS repo at '" +:+ node_path n +:+ "'")]
  | None => throw (TypeError "Cannot read property 'path' of undefined")
  end ;;
  d ← deref_daemon "init";
  directory ← deref_options "IpfsDataDir";
  effect (EInit d directory).

(** The bindings visible inside the callback of [init] where line 94
    stands, innermost first: the block, the parameters of the two
    callbacks, those of the executor, the constants of the module, what
    the module wrapper of Node provides and the globals the file uses.
    The [opts] of line 37 is a [let] of the constructor and is not among
    them; Node has no global of that name.  Only the names matter here:
    what is neither a string nor an array stands as an opaque value. *)
Definition init_callback_scope (migrationNeeded errStr : string) : list (string * JsVal) :=
  [ ("errStr", VStr errStr); ("migrationNeeded", VArr [VStr migrationNeeded]);
    ("err", VOpaque "err"); ("node", VOpaque "node");
    ("err", VOpaque "err"); ("node", VOpaque "node");
    ("resolve", VOpaque "resolve"); ("reject", VOpaque "reject");
    ("fs", VOpaque "fs"); ("mkdirp", VOpaque "mkdirp"); ("path", VOpaque "path");
    ("ipfsd", VOpaque "ipfsd"); ("IpfsApi", VOpaque "IpfsApi");
    ("EventEmitter", VOpaque "EventEmitter"); ("Logger", VOpaque "Logger");
    ("logger", VOpaque "logger"); ("defaultOptions", VOpaque "defaultOptions");
    ("IpfsDaemon", VOpaque "IpfsDaemon");
    ("require", VOpaque "require"); ("module", VOpaque "module");
    ("exports", VOpaque "exports"); ("__filename", VOpaque "__filename");
    ("__dirname", VOpaque "__dirname"); ("process", VOpaque "process");
    ("String", VOpaque "String"); ("Object", VOpaque "Object");
    ("Promise", VOpaque "Promise") ].

(** Lines 87-104: the callback of [this._daemon.init]. *)
Definition init_callback (err : option JsError) : M unit :=
  match err with
  | Some e =>
      match js_match (Error_toString e) "ipfs repo needs migration" with
      | Some found =>
          let errStr := "Error initializing IPFS daemon: '" +:+ found +:+ "'" +:+ nl in
          opts ← resolve_identifier (init_callback_scope found errStr) "opts";
          dir ← get_prop opts "IpfsDataDir";
          let errStr := errStr +:+ "Tried to init IPFS repo at '" +:+ to_string dir
                               +:+ "', but failed." +:+ nl in
          let errStr := errStr +:+ "Use $IPFS_PATH to specify another repo path, eg. 'export IPFS_PATH=/tmp/orbit-floodsub'." in
          forEach (λ line, logger_error [LText line]) (split_lines errStr) ;;
          settle_init (Rejected (TStr errStr))
      | None => mret tt
      end
  | None => settle_init Fulfilled
  end.

(** Lines 109-112: [_startDaemon] up to the call of [startDaemon]. *)
Definition _startDaemon : M unit :=
  new_promise (with_startP (Some Pending)) (λ e, settle_start (Rejected e))
    (logger_debug [LText "Starting IPFS daemon"] ;;
     d ← deref_daemon "startDaemon";
     flags ← deref_options "Flags";
     effect (EStartDaemon d flags)).

(** Truthiness of a string-valued property that may be missing. *)
Definition truthy (v : option string) : bool :=
  match v with
  | Some s => bool_decide (s ≠ "")
  | None => false
  end.

(** Lines 112-127: the callback of [startDaemon].  [gatewayAddr] is what
    [this._daemon.gatewayAddr] holds when the callback runs. *)
Definition startDaemon_callback (err : option JsError) (ipfs : option IpfsHandle)
    (gatewayAddr : option string) : M unit :=
  match err with
  | Some e => settle_start (Rejected (TErr e))
  | None =>
      _ ← deref_daemon "gatewayAddr";
      (if truthy gatewayAddr
       then assign (set_GatewayAddress (Some (default "" gatewayAddr +:+ "/ipfs/")))
       else mret tt) ;;
      match ipfs with
      | Some i =>
          assign (set_api (Some (IpfsApi (apiHost i) (apiPort i)))) ;;
          assign (set_APIAddress (Some (apiHost i +:+ ":" +:+ apiPort i)))
      | None => throw (TypeError "Cannot read property 'apiHost' of undefined")
      end ;;
      api_address ← read (λ w, APIAddress (this w));
      logger_debug [LText "IPFS daemon started at"; LNullable api_address] ;;
      gateway_address ← read (λ w, GatewayAddress (this w));
      logger_debug [LText "Gateway listening at"; LNullable gateway_address] ;;
      settle_start Fulfilled
  end.

(** [fs.existsSync]: [false] for what is not a path; a path is handed to
    the system as it is written. *)
Definition fs_existsSync (v : JsVal) : M bool :=
  λ w, match v with
       | VStr s => Ret (exists_path (fs (proc w)) (cwd (proc w)) s) w
       | _ => Ret false w
       end.

(** [mkdirp.sync]: the path is first brought to its absolute normal form
    ([path.resolve]), then made. *)
Definition mkdirp_sync (v : JsVal) : M unit :=
  match v with
  | VStr s =>
      λ w, let w := with_trace (λ t, (t ++ [EMkdirp s])%list) w in
           match mkdirp_from [] (path_resolve (cwd (proc w)) s) (fs (proc w)) with
           | inr fs' => Ret tt (with_proc (with_fs fs') w)
           | inl e => Throw e w
           end
  | _ => throw (TypeError "Path must be a string")
  end.

(** [path.join(a, b)]: the arguments that are not empty, joined by a
    slash and brought to normal form. *)
Definition path_join (a : JsVal) (b : string) : M string :=
  match a with
  | VStr s =>
      let joined := if decide (s = "") then b
                    else if decide (b = "") then s
                    else s +:+ "/" +:+ b in
      mret (path_normalize joined)
  | _ => throw (TypeError "Path must be a string")
  end.

Definition Logger_setLogfile (file : string) : M unit :=
  λ w, Ret tt (with_proc (with_logfile (Some file)) w).

(** Lines 31-63: the constructor up to the start of the startup sequence. *)
Definition constructor_setup (env : gmap string string) (options : option Obj) : M unit :=
  assign (set_GatewayAddress None) ;;
  assign (set_APIAddress None) ;;
  assign (set_options (Some (merge_options env options))) ;;
  assign (set_daemon None) ;;
  dir ← deref_options "IpfsDataDir";
  there ← fs_existsSync dir;
  (if there : bool then mret tt else mkdirp_sync dir) ;;
  log_dir ← deref_options "LogDirectory";
  file ← path_join log_dir "/ipfs-daemon.log";
  Logger_setLogfile file ;;
  id ← read inst;
  process_on SIGINT (LShutdownRef id) ;;
  process_on SIGTERM (LShutdownRef id) ;;
  process_on uncaughtException (LOnUncaught id).

(** The object [new] hands to the constructor, in the process [p]; it has
    no listeners yet. *)
Definition fresh_world (id : nat) (p : Process) : World :=
  mkWorld (mkSupervisor None None None None None) id Pending None AwaitInit [] p None.

(** [new IpfsDaemon(options)], lines 31-70: the setup, then the call of
    [_initDaemon] that opens the chain of lines 66-69. *)
Definition IpfsDaemon_new (env : gmap string string) (id : nat) (options : option Obj)
    (p : Process) : Outcome unit :=
  (constructor_setup env options ;; _initDaemon) (fresh_world id p).

(** ** The event loop around the supervisor *)

(** [this.emit(ev)]: the emission is recorded.  Of what the listeners of
    the supervisor's own events do, the exception a listener of ['ready']
    throws is followed up in [react_start]; an exception that leaves
    [emit('error')] rejects the last promise of the chain, which nothing
    reads. *)
Definition emit (ev : SupEvent) (w : World) : World :=
  with_trace (λ t, (t ++ [EEmit ev])%list) w.

(** Lines 66-69, the reactions of the chain.  When the promise of
    [_initDaemon] is fulfilled the first [then] calls [_startDaemon];
    when it is rejected the [catch] emits ['error']. *)
Definition react_init (w : World) : World :=
  match chain w, initP w with
  | AwaitInit, Fulfilled => world_of (_startDaemon (with_chain AwaitStart w))
  | AwaitInit, Rejected e => emit (EvError e) (with_chain Settled w)
  | _, _ => w
  end.

(** When the promise of [_startDaemon] is fulfilled the second [then]
    emits ['ready']; an exception thrown by a listener of ['ready'] leaves
    [emit] and rejects the promise of that [then], so that the [catch]
    emits ['error'] with it.  When the promise of [_startDaemon] is
    rejected the [catch] emits ['error']. *)
Definition react_start (w : World) : World :=
  match chain w, startP w with
  | AwaitStart, Some Fulfilled =>
      let w' := emit EvReady (with_chain Settled w) in
      match ready_thrower w with
      | Some e => emit (EvError e) w'
      | None => w'
      end
  | AwaitStart, Some (Rejected e) => emit (EvError e) (with_chain Settled w)
  | _, _ => w
  end.

Definition is_exited (w : World) : bool :=
  match exited (proc w) with Some _ => true | None => false end.

(** The promise jobs that run when a task has finished; none runs in a
    process that has exited. *)
Definition drain (w : World) : World :=
  if is_exited w then w else react_start (react_init w).

Definition exit_with (r : ExitReason) (w : World) : World :=
  with_proc (with_exited (Some r)) w.

Definition listeners_for (ev : ProcEvent) (w : World) : list Listener :=
  (filter (λ el, el.1 = ev) (listeners (proc w))).*2.

(** One listener of ['uncaughtException'] is called.  Listeners of other
    objects act outside this supervisor; an exception thrown by a listener
    is nobody's to catch and ends the process. *)
Definition call_uncaught_listener (error : Thrown) (w : World) (l : Listener) : World :=
  if is_exited w then w
  else match l with
       | LOnUncaught i =>
           if decide (i = inst w)
           then match on_uncaughtException error w with
                | Ret _ w' => w'
                | Throw e w' => exit_with (ExitUncaught e) w'
                end
           else w
       | _ => w
       end.

(** An exception reaches the top of the stack: the process emits
    ['uncaughtException'] to the listeners registered at that moment, and
    dies when there is none. *)
Definition dispatch_uncaught (error : Thrown) (w : World) : World :=
  match listeners_for uncaughtException w with
  | [] => exit_with (ExitUncaught error) w
  | ls => foldl (call_uncaught_listener error) w ls
  end.

Definition call_signal_listener (w : World) (l : Listener) : World :=
  if is_exited w then w
  else match l with
       | LShutdownRef i =>
           if decide (i = inst w)
           then match on_signal w with
                | Ret _ w' => w'
                | Throw e w' => exit_with (ExitUncaught e) w'
                end
           else w
       | _ => w
       end.

(** A signal arrives: its listeners run; without a listener the default
    action ends the process. *)
Definition deliver_signal (sig : Sig) (w : World) : World :=
  match listeners_for (sig_event sig) w with
  | [] => exit_with (ExitSignal sig) w
  | ls => foldl call_signal_listener w ls
  end.

(** A callback is run from the event loop, as the controller does after
    its own asynchronous work: what the callback throws is an uncaught
    exception. *)
Definition run_callback (cb : M unit) (w : World) : World :=
  match cb w with
  | Ret _ w' => w'
  | Throw e w' => dispatch_uncaught e w'
  end.

(** What the world outside can make happen to a constructed supervisor. *)
Inductive Input :=
  | LocalDone (err : option JsError) (node : option Node)
  | InitDone (err : option JsError)
  | StartDone (err : option JsError) (ipfs : option IpfsHandle) (gatewayAddr : option string)
  | Signal (sig : Sig)
  | Uncaught (error : Thrown).

(** One turn of the event loop; a process that has exited takes none. *)
Definition step (w : World) (i : Input) : World :=
  if is_exited w then w
  else drain match i with
             | LocalDone err node => run_callback (local_callback err node) w
             | InitDone err => run_callback (init_callback err) w
             | StartDone err ipfs gw => run_callback (startDaemon_callback err ipfs gw) w
             | Signal sig => deliver_signal sig w
             | Uncaught error => dispatch_uncaught error w
             end.

Definition run (w : World) (inputs : list Input) : World := foldl step w inputs.

(** ** Observations *)

(** The events the supervisor has emitted, oldest first. *)
Definition emitted (w : World) : list SupEvent :=
  omap (λ e, match e with EEmit ev => Some ev | _ => None end) (trace w).

(** The calls made to the daemon controller, oldest first. *)
Definition is_controller_call (e : Effect) : bool :=
  match e with
  | ELocal _ _ | EInit _ _ | EStartDaemon _ _ | EStopDaemon _ => true
  | _ => false
  end.

Definition controller_calls (w : World) : list Effect :=
  filter (λ e, is_controller_call e = true) (trace w).

(** ** Runs that reach readiness *)

(** [String(error)] matches [/non-zero exit code 255/]. *)
Definition interrupt_like (error : Thrown) : bool :=
  match js_match (String_of error) "non-zero exit code 255" with
  | Some _ => true
  | None => false
  end.

(** Inputs that may arrive at any time of a run and leave a constructed
    supervisor as it is: signals. *)
Definition bystander (i : Input) : bool :=
  match i with
  | Signal _ => true
  | _ => false
  end.

(** Inputs that are not part of the startup sequence and do not ask for a
    shutdown: signals, and uncaught exceptions other than the
    interrupt-like one.  The latter are logged, which the process
    survives only where the log file can be opened. *)
Definition onlooker (i : Input) : bool :=
  match i with
  | Signal _ => true
  | Uncaught error => negb (interrupt_like error)
  | _ => false
  end.

(** The object identity [id] is new to the process: no listener of the
    process is a closure of that object. *)
Definition foreign_to (id : nat) (ls : list (ProcEvent * Listener)) : Prop :=
  Forall (λ el, el.2 ≠ LShutdownRef id ∧ el.2 ≠ LOnUncaught id) ls.

Definition fresh_in (id : nat) (p : Process) : Prop := foreign_to id (listeners p).

(** The three phases answer with success, in order, with other inputs
    in between. *)
Definition startup_inputs (b0 : list Input) (node : Node) (b1 b2 : list Input)
    (ipfs : IpfsHandle) (gatewayAddr : option string) (b3 : list Input) : list Input :=
  (b0 ++ LocalDone None (Some node) :: b1 ++ InitDone None :: b2
      ++ StartDone None (Some ipfs) gatewayAddr :: b3)%list.

(** A supervisor that has reached readiness: constructed in a running
    process and taken through a successful startup, with signals and
    uncaught exceptions that ask for no shutdown in between and after, in
    a process that still runs.  No listener of ['ready'] has thrown: the
    inputs register none. *)
Definition Ready (w : World) : Prop :=
  ∃ env id options p w0 b0 node b1 b2 ipfs gatewayAddr b3,
    exited p = None ∧ fresh_in id p ∧
    IpfsDaemon_new env id options p = Ret tt w0 ∧
    Forall (λ i, onlooker i = true) (b0 ++ b1 ++ b2 ++ b3)%list ∧
    w = run w0 (startup_inputs b0 node b1 b2 ipfs gatewayAddr b3) ∧
    exited (proc w) = None.

(** ** Vocabulary of the statements *)

(** The listeners the constructor of the object [id] registers. *)
Definition own_listeners (id : nat) : list (ProcEvent * Listener) :=
  [(SIGINT, LShutdownRef id); (SIGTERM, LShutdownRef id);
   (uncaughtException, LOnUncaught id)].

(** The supervisor [id] holds its three listeners in the process [p], after
    the listeners that were there before it. *)
Definition Attached (id : nat) (p : Process) : Prop :=
  exited p = None ∧
  ∃ before, listeners p = (before ++ own_listeners id)%list ∧ foreign_to id before.

Definition own_listener_for (id : nat) (ev : ProcEvent) : list Listener :=
  match ev with
  | SIGINT | SIGTERM => [LShutdownRef id]
  | uncaughtException => [LOnUncaught id]
  | other_event _ => []
  end.

(** The world with [l] added to what has happened. *)
Definition append_trace (l : list Effect) (w : World) : World :=
  with_trace (λ t, (t ++ l)%list) w.

(** No reaction of the chain is due. *)
Definition quiet (w : World) : Prop :=
  match chain w with
  | AwaitInit => initP w = Pending
  | AwaitStart => startP w = Some Pending
  | Settled => True
  end.

(** The fields the callback of [startDaemon] assigns. *)
Definition started_fields (i : IpfsHandle) (gatewayAddr : option string)
    (s : Supervisor) : Supervisor :=
  set_APIAddress (Some (apiHost i +:+ ":" +:+ apiPort i))
    (set_api (Some (IpfsApi (apiHost i) (apiPort i)))
       (if truthy gatewayAddr
        then set_GatewayAddress (Some (default "" gatewayAddr +:+ "/ipfs/")) s
        else s)).

(** The world after [logger.error(error)] has written to the log of the
    process, which is then [p']. *)
Definition logged (error : Thrown) (p' : Process) (w : World) : World :=
  append_trace [ELog LError [LThrown error]] (with_proc (λ _, p') w).

(** What can be observed of a world in which every listener of ['ready']
    returns. *)
Definition Shape (s : Supervisor) (id : nat) (pr : Process) (ip : PState)
    (sp : option PState) (ch : Chain) (em : list SupEvent) (calls : list Effect)
    (w : World) : Prop :=
  this w = s ∧ inst w = id ∧ proc w = pr ∧ initP w = ip ∧ startP w = sp
  ∧ chain w = ch ∧ emitted w = em ∧ controller_calls w = calls
  ∧ ready_thrower w = None.

(** No reaction of the chain is due, said of its parts. *)
Definition due (ch : Chain) (ip : PState) (sp : option PState) : Prop :=
  match ch with
  | AwaitInit => ip = Pending
  | AwaitStart => sp = Some Pending
  | Settled => True
  end.

(** The same of a supervisor that holds its listeners, the process
    apart. *)
Definition Obs (s : Supervisor) (id : nat) (ip : PState) (sp : option PState)
    (ch : Chain) (em : list SupEvent) (calls : list Effect) (w : World) : Prop :=
  this w = s ∧ inst w = id ∧ Attached id (proc w) ∧ initP w = ip ∧ startP w = sp
  ∧ chain w = ch ∧ emitted w = em ∧ controller_calls w = calls
  ∧ ready_thrower w = None.


(** The events whose listeners [_handleShutdown] leaves alone. *)
Definition survives (ev : ProcEvent) : bool :=
  match ev with
  | other_event _ => true
  | _ => false
  end.

(** The world after a shutdown that found the controller [d]. *)
Definition shut_down (d : Node) (w : World) : World :=
  append_trace [ELog LDebug [LText "Shutting down..."]; EStopDaemon d;
                ELog LDebug [LText "IPFS daemon finished"]]
    (with_proc (with_listeners (filter (λ el, survives el.1 = true)))
       (with_this (λ s, mkSupervisor None None None None (api s)) w)).

(** ** A sample run *)

Definition sample_process : Process :=
  mkProcess (mkFS {[ ["tmp"] := Dir ]} ∅) ["home"; "user"] None
    [(SIGINT, LForeign 7); (other_event "exit", LForeign 8)] None false.

Definition sample_node : Node := mkNode 1 "/tmp/x".
Definition sample_ipfs : IpfsHandle := mkIpfs "127.0.0.1" "5001".
Definition sample_overlay : Obj := {[ "IpfsDataDir" := VStr "/tmp/x" ]}.

Definition sample_constructed : World :=
  world_of (IpfsDaemon_new ∅ 0 (Some sample_overlay) sample_process).

Definition sample_ready : World :=
  run sample_constructed
    [LocalDone None (Some sample_node); InitDone None;
     StartDone None (Some sample_ipfs) (Some "/ip4/0.0.0.0/tcp/8080")].





(** ** Runs with calls of [stop] *)

(** The sample supervisor while the repository is initialised, and while
    the daemon starts. *)
Definition sample_initializing : World :=
  step sample_constructed (LocalDone None (Some sample_node)).

Definition sample_starting : World := step sample_initializing (InitDone None).

(** What can happen to a constructed supervisor: an input from outside,
    or a call by the code that holds the object, of [stop()] or of
    [on('ready', listener)] with a listener that throws [e].  What [stop]
    throws is the caller's to handle; the world it leaves is kept.
    Listeners are called in the order they were registered, so the first
    that throws is the one whose exception leaves [emit]; listeners that
    return change nothing here. *)
Inductive Action :=
  | FromOutside (i : Input)
  | CallStop
  | OnReady (e : Thrown).

Definition act (w : World) (a : Action) : World :=
  match a with
  | FromOutside i => step w i
  | CallStop => if is_exited w then w else world_of (stop w)
  | OnReady e =>
      if is_exited w then w
      else match ready_thrower w with
           | Some _ => w
           | None => with_ready_thrower (Some e) w
           end
  end.

Definition is_start (e : Effect) : bool :=
  match e with
  | EStartDaemon _ _ => true
  | _ => false
  end.

(** The number of requests to start the daemon made so far. *)
Definition starts (w : World) : nat :=
  length (filter (λ e, is_start e = true) (trace w)).

(** An effect that is neither an emission nor a request to start. *)
Definition silent (e : Effect) : bool :=
  match e with
  | EEmit _ | EStartDaemon _ _ => false
  | _ => true
  end.

(** Two worlds agree on where the chain stands, on the events emitted and
    on the start requests made. *)
Definition calm (w w' : World) : Prop :=
  chain w' = chain w ∧ emitted w' = emitted w ∧ starts w' = starts w.

(** A statement that leaves the chain, the events and the start requests
    as they are, however it ends. *)
Definition keeps {A} (m : M A) : Prop := ∀ w, calm w (world_of (m w)).

(** How many times an event of each name has been emitted. *)
Definition is_ready (ev : SupEvent) : bool :=
  match ev with
  | EvReady => true
  | EvError _ => false
  end.

Definition ready_count (w : World) : nat :=
  length (filter (λ ev, is_ready ev = true) (emitted w)).

Definition error_count (w : World) : nat :=
  length (filter (λ ev, is_ready ev = false) (emitted w)).

(** The chain has emitted nothing before it is settled and each event at
    most once after, and the daemon was asked to start at most once. *)
Definition SingleShot (w : World) : Prop :=
  match chain w with
  | AwaitInit => emitted w = [] ∧ starts w = 0
  | AwaitStart => emitted w = [] ∧ (starts w ≤ 1)%nat
  | Settled => (ready_count w ≤ 1)%nat ∧ (error_count w ≤ 1)%nat ∧ (starts w ≤ 1)%nat
  end.

(** * Properties *)

(** ** Literal search *)

Local Arguments String.append !_ _ / : simpl nomatch.

Lemma prefix_true_iff (p s : string) :
  String.prefix p s = true ↔ ∃ post, s = p +:+ post.
Proof.
  revert s. induction p as [|c p IH]; intros s.
  - split; [intros _; by exists s | by destruct s].
  - destruct s as [|c' s]; simpl; [split; [done | by intros [? ?]]|].
    destruct (Ascii.ascii_dec c c') as [->|Hne].
    + rewrite IH. split; intros [post H]; exists post; simpl in *; congruence.
    + split; [done | intros [post H]; simpl in *; congruence].
Qed.

Lemma find_literal_unfold (pat s : string) :
  find_literal pat s =
    if String.prefix pat s then Some 0
    else match s with
         | EmptyString => None
         | String _ s' => S <$> find_literal pat s'
         end.
Proof. by destruct s. Qed.

Lemma find_literal_Some (pat s : string) (i : nat) :
  find_literal pat s = Some i →
  ∃ pre post, s = pre +:+ pat +:+ post ∧ String.length pre = i.
Proof.
  revert i. induction s as [|c s IH]; intros i; rewrite find_literal_unfold;
    destruct (String.prefix pat _) eqn:Hp.
  - intros [= <-]. apply prefix_true_iff in Hp as [post ->]. by exists "", post.
  - done.
  - intros [= <-]. apply prefix_true_iff in Hp as [post ->]. by exists "", post.
  - destruct (find_literal pat s) as [j|]; [|done].
    intros [= <-]. destruct (IH j eq_refl) as (pre & post & -> & <-).
    by exists (String c pre), post.
Qed.

Lemma find_literal_None (pat s : string) :
  find_literal pat s = None → ¬ ∃ pre post, s = pre +:+ pat +:+ post.
Proof.
  induction s as [|c s IH]; rewrite find_literal_unfold;
    destruct (String.prefix pat _) eqn:Hp; try done.
  - intros _ (pre & post & H).
    destruct pre; simpl in H; [|done].
    assert (String.prefix pat "" = true) by (apply prefix_true_iff; eauto).
    congruence.
  - destruct (find_literal pat s) eqn:Hf; [done|]. intros _ (pre & post & H).
    destruct pre as [|c' pre]; simpl in H.
    + assert (String.prefix pat (String c s) = true) by (apply prefix_true_iff; eauto).
      congruence.
    + injection H as -> ->. apply IH; eauto.
Qed.

Lemma substring_at (pre pat post : string) :
  String.substring (String.length pre) (String.length pat) (pre +:+ pat +:+ post) = pat.
Proof.
  induction pre as [|c pre IH]; simpl; [|done].
  induction pat as [|c pat IH]; simpl.
  - by destruct post.
  - by rewrite IH.
Qed.

(** A match of a literal pattern finds the pattern itself. *)
Lemma js_match_Some (s pat found : string) :
  js_match s pat = Some found → found = pat.
Proof.
  unfold js_match. destruct (find_literal pat s) as [i|] eqn:Hf; simpl; [|done].
  intros [= <-]. apply find_literal_Some in Hf as (pre & post & -> & <-).
  apply substring_at.
Qed.

Lemma js_match_is_Some (s pat : string) :
  is_Some (js_match s pat) ↔ ∃ pre post, s = pre +:+ pat +:+ post.
Proof.
  unfold js_match. destruct (find_literal pat s) as [i|] eqn:Hf; simpl.
  - split; [intros _|eauto]. apply find_literal_Some in Hf as (pre & post & ? & _); eauto.
  - split; [by intros [? ?]|]. intros H. by apply find_literal_None in Hf.
Qed.

Lemma interrupt_like_iff (error : Thrown) :
  interrupt_like error = true ↔
  ∃ pre post, String_of error = pre +:+ "non-zero exit code 255" +:+ post.
Proof.
  rewrite <- js_match_is_Some. unfold interrupt_like.
  destruct (js_match _ _).
  - split; eauto.
  - split; [done | by intros [? ?]].
Qed.

(** ** The configuration *)

Lemma Object_assign_lookup (target src : Obj) (k : string) :
  Object_assign target (Some src) !! k =
    match src !! k with Some v => Some v | None => target !! k end.
Proof.
  unfold Object_assign.
  induction src as [|i x m Hi Hfold IH] using map_first_key_ind.
  - by rewrite map_fold_empty, lookup_empty.
  - rewrite map_fold_insert_first_key by done.
    rewrite !lookup_insert. case_decide; subst; [done|]. apply IH.
Qed.

Lemma merge_options_lookup (env : gmap string string) (overlay : Obj) (k : string) :
  merge_options env (Some overlay) !! k =
    match overlay !! k with Some v => Some v | None => defaultOptions env !! k end.
Proof.
  unfold merge_options. rewrite Object_assign_lookup.
  destruct (overlay !! k); [done|]. rewrite Object_assign_lookup, lookup_empty.
  by destruct (defaultOptions env !! k).
Qed.

(** C2.  The effective configuration is the defaults with exactly the
    top-level keys of the overlay replaced by the overlay's values: a key
    of the overlay reads as the overlay has it, whole (a nested object is
    not merged with the default one), every other key reads as in the
    defaults; the overlay [{IpfsDataDir: "/tmp/x"}] leaves
    [Addresses.API] at ["/ip4/127.0.0.1/tcp/5001"] and sets [IpfsDataDir]
    to ["/tmp/x"]; and an overlay that gives [Addresses] with the key [API]
    alone yields an [Addresses] without [Swarm] and [Gateway]. *)
Theorem merge_options_shallow (env : gmap string string) (overlay : Obj) :
  merge_options env (Some overlay) = overlay ∪ defaultOptions env
  ∧ (∀ k v, overlay !! k = Some v → merge_options env (Some overlay) !! k = Some v)
  ∧ (∀ k, overlay !! k = None →
          merge_options env (Some overlay) !! k = defaultOptions env !! k)
  ∧ merge_options env None = defaultOptions env
  ∧ (let opts := merge_options env (Some {[ "IpfsDataDir" := VStr "/tmp/x" ]}) in
     (∃ addresses, opts !! "Addresses" = Some (VObj addresses)
                   ∧ addresses !! "API" = Some (VStr "/ip4/127.0.0.1/tcp/5001"))
     ∧ opts !! "IpfsDataDir" = Some (VStr "/tmp/x"))
  ∧ (∀ api_address,
       get (merge_options env (Some {[ "Addresses" := VObj {[ "API" := api_address ]} ]}))
           "Addresses"
       = VObj {[ "API" := api_address ]}).
Proof.
  split_and!.
  - apply map_eq. intros k. rewrite merge_options_lookup, lookup_union.
    destruct (overlay !! k), (defaultOptions env !! k); done.
  - intros k v Hk. by rewrite merge_options_lookup, Hk.
  - intros k Hk. by rewrite merge_options_lookup, Hk.
  - unfold merge_options. cbn [Object_assign]. fold (Object_assign ∅ (Some (defaultOptions env))).
    apply map_eq. intros k.
    rewrite Object_assign_lookup, lookup_empty. by destruct (defaultOptions env !! k).
  - cbv zeta. split.
    + eexists. rewrite merge_options_lookup. split; [reflexivity|reflexivity].
    + by rewrite merge_options_lookup.
  - intros api_address. unfold get. by rewrite merge_options_lookup.
Qed.

(** ** The constructor *)

Local Arguments get : simpl never.
Local Arguments merge_options : simpl never.
Local Arguments path_resolve : simpl never.
Local Arguments mkdirp_from : simpl never.
Local Arguments js_match : simpl never.

(** Symbolic execution of a statement: the monad, its primitives and the
    record accessors are unfolded, the rest stays folded. *)
Ltac exec :=
  cbv [mbind M_bind mret M_ret throw read assign effect logger_debug logger_error
       deref_daemon deref_options process_on process_removeAllListeners
       settle_init settle_start new_promise Logger_setLogfile path_join
       fs_existsSync mkdirp_sync world_of emit exit_with is_exited
       with_this with_initP with_startP with_chain with_trace with_proc
       with_ready_thrower
       with_fs with_logfile with_listeners with_exited
       set_GatewayAddress set_APIAddress set_options set_daemon set_api
       this inst initP startP chain trace proc ready_thrower
       fs cwd logfile listeners exited log_writer
       GatewayAddress APIAddress _options _daemon api].

Tactic Notation "exec" "in" hyp(H) :=
  cbv [mbind M_bind mret M_ret throw read assign effect logger_debug logger_error
       deref_daemon deref_options process_on process_removeAllListeners
       settle_init settle_start new_promise Logger_setLogfile path_join
       fs_existsSync mkdirp_sync world_of emit exit_with is_exited
       with_this with_initP with_startP with_chain with_trace with_proc
       with_ready_thrower
       with_fs with_logfile with_listeners with_exited
       set_GatewayAddress set_APIAddress set_options set_daemon set_api
       this inst initP startP chain trace proc ready_thrower
       fs cwd logfile listeners exited log_writer
       GatewayAddress APIAddress _options _daemon api] in H.

(** The shape of a freshly constructed supervisor. *)
Lemma IpfsDaemon_new_Ret env id options p w0 :
  IpfsDaemon_new env id options p = Ret tt w0 →
  ∃ fs' file pre,
    w0 = mkWorld
           (mkSupervisor None None (Some (merge_options env options)) None None)
           id Pending None AwaitInit
           (pre ++ [ELocal (get (merge_options env options) "IpfsDataDir")
                           (Some (merge_options env options))])%list
           (mkProcess fs' (cwd p) (Some file) (listeners p ++ own_listeners id)%list
              (exited p) (log_writer p))
           None
    ∧ (pre = [] ∧ fs' = fs p
       ∨ ∃ d, pre = [EMkdirp d]
              ∧ get (merge_options env options) "IpfsDataDir" = VStr d
              ∧ mkdirp_from [] (path_resolve (cwd p) d) (fs p) = inr fs').
Proof.
  unfold IpfsDaemon_new, constructor_setup, _initDaemon, fresh_world.
  destruct p as [f c lf ls ex lw]. exec.
  set (opts := merge_options env options).
  destruct (get opts "IpfsDataDir") as [| | |d| | |] eqn:Hdir; try done.
  destruct (exists_path f c d).
  all: try destruct (mkdirp_from [] (path_resolve c d) f) as [e|fs'] eqn:Hmk; try done.
  all: destruct (get opts "LogDirectory") as [| | |ld| | |] eqn:Hlog; try done.
  all: intros [= <-]; rewrite <- !(assoc_L (++)%list); rewrite <- ?Hdir.
  all: first
    [ exists f; eexists; exists [];
      split; [reflexivity | by left]
    | exists fs'; eexists; exists [EMkdirp d];
      split; [reflexivity | right; by exists d] ].
Qed.

(** ** Listeners of a constructed supervisor *)

Lemma listeners_for_attached w ev before :
  listeners (proc w) = (before ++ own_listeners (inst w))%list →
  listeners_for ev w =
    ((filter (λ el, el.1 = ev) before).*2 ++ own_listener_for (inst w) ev)%list.
Proof.
  intros H. unfold listeners_for. rewrite H, filter_app, fmap_app. f_equal.
  unfold own_listeners. rewrite !filter_cons, filter_nil; simpl.
  destruct ev; repeat case_decide; try done.
Qed.

Lemma foldl_fixed {A B} (f : A → B → A) (a : A) (l : list B) :
  (∀ x, x ∈ l → f a x = a) → foldl f a l = a.
Proof.
  induction l as [|x l IH]; simpl; [done|]. intros H.
  rewrite (H x) by left. apply IH. intros y Hy. apply H. by right.
Qed.

Lemma foreign_of_before id ev (before : list (ProcEvent * Listener)) l :
  foreign_to id before →
  l ∈ (filter (λ el, el.1 = ev) before).*2 →
  l ≠ LShutdownRef id ∧ l ≠ LOnUncaught id.
Proof.
  intros Hb Hl. apply list_elem_of_fmap in Hl as ([ev' l'] & -> & Hin).
  apply list_elem_of_filter in Hin as [_ Hin].
  unfold foreign_to in Hb. rewrite Forall_forall in Hb. by apply (Hb (ev', l')).
Qed.

Lemma call_uncaught_foreign error w l :
  l ≠ LOnUncaught (inst w) → call_uncaught_listener error w l = w.
Proof.
  intros Hl. unfold call_uncaught_listener. destruct (is_exited w); [done|].
  destruct l; try done. case_decide; congruence.
Qed.

Lemma call_signal_any w l :
  call_signal_listener w l = w.
Proof.
  unfold call_signal_listener. destruct (is_exited w); [done|].
  destruct l; try done. by case_decide.
Qed.

(** A signal, delivered to a process in which the supervisor holds its
    listeners, changes nothing at all. *)
Lemma deliver_signal_attached sig w :
  Attached (inst w) (proc w) → deliver_signal sig w = w.
Proof.
  intros (Hex & before & Hls & Hfresh). unfold deliver_signal.
  rewrite (listeners_for_attached _ _ _ Hls).
  assert (∀ ls, foldl call_signal_listener w ls = w) as Hfold
    by (intros ls; apply foldl_fixed; intros; apply call_signal_any).
  destruct ((filter _ before).*2 ++ _)%list eqn:Heq; [|apply Hfold].
  apply app_eq_nil in Heq as [_ Heq]. by destruct sig.
Qed.

(** An uncaught exception reaches the listener of the supervisor, once,
    after the listeners that were registered before it. *)
Lemma dispatch_uncaught_attached error w :
  Attached (inst w) (proc w) →
  dispatch_uncaught error w =
    match on_uncaughtException error w with
    | Ret _ w' => w'
    | Throw e w' => exit_with (ExitUncaught e) w'
    end.
Proof.
  intros (Hex & before & Hls & Hfresh). unfold dispatch_uncaught.
  rewrite (listeners_for_attached _ _ _ Hls). simpl own_listener_for.
  destruct ((filter _ before).*2 ++ _)%list eqn:Heq; [by apply app_eq_nil in Heq as [_ ?]|].
  rewrite <- Heq, foldl_app.
  rewrite (foldl_fixed _ w).
  - simpl. unfold call_uncaught_listener.
    unfold is_exited. rewrite Hex. by rewrite decide_True.
  - intros x Hx. apply call_uncaught_foreign.
    by eapply foreign_of_before in Hx as [_ ?].
Qed.

(** ** The log of the process *)

(** Opening the log changes the filesystem and nothing else of the
    process, and need not be done twice. *)
Lemma open_log_inr p p' :
  open_log p = inr p' →
  listeners p' = listeners p ∧ exited p' = exited p ∧ cwd p' = cwd p
  ∧ logfile p' = logfile p ∧ open_log p' = inr p'.
Proof.
  unfold open_log. destruct p as [f c lf ls ex lw]; cbn.
  destruct lw; [intros [= <-]; by split_and!|].
  destruct lf as [file|]; [|intros [= <-]; by split_and!].
  destruct (os_resolve f c file) as [q|]; [|done].
  destruct (kind_of f q) as [[|]|]; try done.
  - intros [= <-]. by split_and!.
  - case_decide; [done|]. intros [= <-]. by split_and!.
Qed.

Lemma open_log_attached id p p' :
  Attached id p → open_log p = inr p' → Attached id p'.
Proof.
  intros (Hex & before & Hls & Hfresh) (Hl & He & _)%open_log_inr.
  split; [congruence|]. exists before. by rewrite Hl.
Qed.

(** ** The steps of a successful startup *)

Lemma drain_quiet w : quiet w → drain w = w.
Proof.
  intros H. unfold drain. destruct (is_exited w); [done|].
  destruct w as [s id ip sp ch tr pr rt]. unfold quiet, react_start, react_init in *.
  simpl in *. destruct ch; simpl; subst; done.
Qed.

Lemma drain_exited w : is_exited w = true → drain w = w.
Proof. intros H. unfold drain. by rewrite H. Qed.

Lemma drain_alive w : is_exited w = false → drain w = react_start (react_init w).
Proof. intros H. unfold drain. by rewrite H. Qed.

Lemma is_exited_false w : exited (proc w) = None → is_exited w = false.
Proof. intros H. unfold is_exited. by rewrite H. Qed.

Ltac destruct_world w :=
  let s := fresh "s" in
  destruct w as [s ? ? ? ? ? ? ?]; destruct s; simpl in *; subst.

(** The same for a world whose process is known to run. *)
Ltac destruct_alive w :=
  let s := fresh "s" in
  let pr := fresh "pr" in
  destruct w as [s ? ? ? ? ? pr ?]; destruct s; destruct pr as [? ? ? ? [?|] ?];
  simpl in *; subst; try discriminate.

Lemma step_LocalDone_ok w n o :
  is_exited w = false → quiet w → _options (this w) = Some o →
  step w (LocalDone None (Some n)) =
    append_trace [ELog LDebug [LText "Initializing IPFS daemon"];
                  ELog LDebug [LText ("Using IPFS repo at '" +:+ node_path n +:+ "'")];
                  EInit n (get o "IpfsDataDir")]
      (with_this (set_daemon (Some n)) w).
Proof.
  intros Hex Hq Ho. unfold step. rewrite Hex.
  assert (run_callback (local_callback None (Some n)) w =
          append_trace [ELog LDebug [LText "Initializing IPFS daemon"];
                  ELog LDebug [LText ("Using IPFS repo at '" +:+ node_path n +:+ "'")];
                  EInit n (get o "IpfsDataDir")]
            (with_this (set_daemon (Some n)) w)) as ->.
  { destruct_world w. unfold run_callback, local_callback, append_trace. exec.
    by rewrite <- !(assoc_L (++)%list). }
  apply drain_quiet. by destruct_world w.
Qed.

Lemma step_InitDone_ok w d o :
  is_exited w = false → chain w = AwaitInit → initP w = Pending →
  _daemon (this w) = Some d → _options (this w) = Some o →
  step w (InitDone None) =
    append_trace [ELog LDebug [LText "Starting IPFS daemon"];
                  EStartDaemon d (get o "Flags")]
      (with_startP (Some Pending) (with_chain AwaitStart (with_initP Fulfilled w))).
Proof.
  intros Hex Hc Hi Hd Ho. unfold step. rewrite Hex.
  assert (run_callback (init_callback None) w = with_initP Fulfilled w) as ->.
  { destruct_world w. unfold run_callback, init_callback. exec. reflexivity. }
  rewrite drain_alive by (by destruct w).
  destruct_world w.
  unfold react_init, react_start, _startDaemon, append_trace.
  exec. by rewrite <- !(assoc_L (++)%list).
Qed.

Lemma step_StartDone_ok w d i gw :
  is_exited w = false → chain w = AwaitStart → startP w = Some Pending →
  _daemon (this w) = Some d → ready_thrower w = None →
  step w (StartDone None (Some i) gw) =
    append_trace
      [ELog LDebug [LText "IPFS daemon started at";
                    LNullable (Some (apiHost i +:+ ":" +:+ apiPort i))];
       ELog LDebug [LText "Gateway listening at";
                    LNullable (GatewayAddress (started_fields i gw (this w)))];
       EEmit EvReady]
      (with_chain Settled (with_startP (Some Fulfilled)
         (with_this (started_fields i gw) w))).
Proof.
  intros Hex Hc Hs Hd Hrt. unfold step. rewrite Hex.
  assert (run_callback (startDaemon_callback None (Some i) gw) w =
          append_trace
            [ELog LDebug [LText "IPFS daemon started at";
                          LNullable (Some (apiHost i +:+ ":" +:+ apiPort i))];
             ELog LDebug [LText "Gateway listening at";
                          LNullable (GatewayAddress (started_fields i gw (this w)))]]
            (with_startP (Some Fulfilled) (with_this (started_fields i gw) w))) as ->.
  { destruct_world w.
    unfold run_callback, startDaemon_callback, append_trace, started_fields.
    exec. destruct (truthy gw); exec; by rewrite <- !(assoc_L (++)%list). }
  rewrite drain_alive by (by destruct w).
  destruct_world w. unfold react_init, react_start, append_trace.
  exec. by rewrite <- !(assoc_L (++)%list).
Qed.

(** A signal leaves a constructed supervisor as it is. *)
Lemma step_bystander w i :
  Attached (inst w) (proc w) → quiet w → bystander i = true →
  step w i = w.
Proof.
  intros Ha Hq Hb. unfold step, is_exited. destruct Ha as [Hex Ha]. rewrite Hex.
  destruct i as [| | |sig|error]; try done; simpl.
  rewrite deliver_signal_attached by done. by apply drain_quiet.
Qed.

Lemma run_bystanders w bs :
  Attached (inst w) (proc w) → quiet w → Forall (λ i, bystander i = true) bs →
  run w bs = w.
Proof.
  intros Ha Hq Hbs.
  induction Hbs as [|i bs Hi Hbs IH]; simpl; [done|].
  unfold run in *. simpl. by rewrite step_bystander.
Qed.

Lemma run_app w l1 l2 : run w (l1 ++ l2) = run (run w l1) l2.
Proof. apply foldl_app. Qed.

Lemma run_cons w i l : run w (i :: l) = run (step w i) l.
Proof. done. Qed.

(** A process that has exited takes no more turns. *)
Lemma run_exited w l : is_exited w = true → run w l = w.
Proof.
  intros H. induction l as [|i l IH]; [done|].
  rewrite run_cons. unfold step. by rewrite H.
Qed.

Lemma alive_before w l : exited (proc (run w l)) = None → exited (proc w) = None.
Proof.
  intros H. destruct (exited (proc w)) as [r|] eqn:Hex; [|done].
  rewrite run_exited in H by (unfold is_exited; by rewrite Hex). congruence.
Qed.

Lemma emitted_append l w :
  emitted (append_trace l w) =
    (emitted w ++ omap (λ e, match e with EEmit ev => Some ev | _ => None end) l)%list.
Proof. destruct w. unfold emitted, append_trace, with_trace; simpl. apply omap_app. Qed.

Lemma controller_calls_append l w :
  controller_calls (append_trace l w) =
    (controller_calls w ++ filter (λ e, is_controller_call e = true) l)%list.
Proof.
  destruct w. unfold controller_calls, append_trace, with_trace; simpl. apply filter_app.
Qed.

Lemma Shape_bystanders s id pr ip sp ch em calls w bs :
  Shape s id pr ip sp ch em calls w →
  Attached id pr →
  match ch with AwaitInit => ip = Pending | AwaitStart => sp = Some Pending | Settled => True end →
  Forall (λ i, bystander i = true) bs →
  Shape s id pr ip sp ch em calls (run w bs).
Proof.
  intros (Hs & Hid & Hpr & Hip & Hsp & Hch & Hem & Hcalls & Hrt) Ha Hq Hbs.
  rewrite run_bystanders; [| by rewrite Hid, Hpr | unfold quiet; by rewrite Hch, Hip, Hsp | done].
  by unfold Shape.
Qed.

Lemma Shape_LocalDone s id pr ip sp ch em calls w n o :
  Shape s id pr ip sp ch em calls w →
  exited pr = None →
  match ch with AwaitInit => ip = Pending | AwaitStart => sp = Some Pending | Settled => True end →
  _options s = Some o →
  Shape (set_daemon (Some n) s) id pr ip sp ch em
    (calls ++ [EInit n (get o "IpfsDataDir")]) (step w (LocalDone None (Some n))).
Proof.
  intros (Hs & Hid & Hpr & Hip & Hsp & Hch & Hem & Hcalls & Hrt) Hex Hq Ho.
  rewrite (step_LocalDone_ok w n o);
    [| unfold is_exited; by rewrite Hpr, Hex
     | unfold quiet; by rewrite Hch, Hip, Hsp | by rewrite Hs].
  unfold Shape. rewrite emitted_append, controller_calls_append.
  destruct w as [s' ? ? ? ? tr ? ?]; cbn in *. subst. rewrite app_nil_r. done.
Qed.

Lemma Shape_InitDone s id pr sp em calls w d o :
  Shape s id pr Pending sp AwaitInit em calls w →
  exited pr = None → _daemon s = Some d → _options s = Some o →
  Shape s id pr Fulfilled (Some Pending) AwaitStart em
    (calls ++ [EStartDaemon d (get o "Flags")]) (step w (InitDone None)).
Proof.
  intros (Hs & Hid & Hpr & Hip & Hsp & Hch & Hem & Hcalls & Hrt) Hex Hd Ho.
  rewrite (step_InitDone_ok w d o);
    [| unfold is_exited; by rewrite Hpr, Hex | done | done
     | by rewrite Hs | by rewrite Hs].
  unfold Shape. rewrite emitted_append, controller_calls_append.
  destruct w as [s' ? ? ? ? tr ? ?]; cbn in *. subst. rewrite app_nil_r. done.
Qed.

Lemma Shape_StartDone s id pr ip em calls w d i gw :
  Shape s id pr ip (Some Pending) AwaitStart em calls w →
  exited pr = None → _daemon s = Some d →
  Shape (started_fields i gw s) id pr ip (Some Fulfilled) Settled (em ++ [EvReady])
    calls (step w (StartDone None (Some i) gw)).
Proof.
  intros (Hs & Hid & Hpr & Hip & Hsp & Hch & Hem & Hcalls & Hrt) Hex Hd.
  rewrite (step_StartDone_ok w d i gw);
    [| unfold is_exited; by rewrite Hpr, Hex | done | done | by rewrite Hs | done].
  unfold Shape. rewrite emitted_append, controller_calls_append.
  destruct w as [s' ? ? ? ? tr ? ?]; cbn in *. subst. rewrite app_nil_r. done.
Qed.

(** Where a successful startup leads, from the construction on. *)
Lemma startup_reaches env id options p w0 b0 node b1 b2 ipfs gw b3 :
  exited p = None → fresh_in id p →
  IpfsDaemon_new env id options p = Ret tt w0 →
  Forall (λ i, bystander i = true) (b0 ++ b1 ++ b2 ++ b3)%list →
  let w := run w0 (startup_inputs b0 node b1 b2 ipfs gw b3) in
  let opts := merge_options env options in
  Shape (started_fields ipfs gw (mkSupervisor None None (Some opts) (Some node) None))
    id (proc w0) Fulfilled (Some Fulfilled) Settled [EvReady]
    [ELocal (get opts "IpfsDataDir") (Some opts);
     EInit node (get opts "IpfsDataDir");
     EStartDaemon node (get opts "Flags")] w
  ∧ Attached id (proc w0)
  ∧ listeners (proc w0) = (listeners p ++ own_listeners id)%list.
Proof.
  intros Hex Hfresh Hnew Hbs.
  apply IpfsDaemon_new_Ret in Hnew as (fs' & file & pre & -> & Hpre).
  apply Forall_app in Hbs as [Hb0 Hbs]. apply Forall_app in Hbs as [Hb1 Hbs].
  apply Forall_app in Hbs as [Hb2 Hb3].
  cbv zeta. set (opts := merge_options env options).
  set (pr := mkProcess fs' (cwd p) (Some file) (listeners p ++ own_listeners id)%list
               (exited p) (log_writer p)).
  assert (Attached id pr) as Hatt.
  { split; [done|]. exists (listeners p). split; [done|]. apply Hfresh. }
  assert (exited pr = None) as Hex' by done.
  match goal with |- context [run ?w _] => set (w0 := w) end.
  assert (Shape (mkSupervisor None None (Some opts) None None) id pr Pending None AwaitInit
            [] [ELocal (get opts "IpfsDataDir") (Some opts)] w0) as H0.
  { unfold Shape, emitted, controller_calls, w0; cbn [this inst proc initP startP chain trace].
    rewrite omap_app, filter_app.
    destruct Hpre as [[-> _]|(d & -> & _)]; done. }
  change (proc w0) with pr.
  split; [|by split]. clearbody w0 pr. clear Hpre.
  unfold startup_inputs. rewrite run_app, run_cons, run_app, run_cons, run_app, run_cons.
  pose proof (Shape_bystanders _ _ _ _ _ _ _ _ _ _ H0 Hatt eq_refl Hb0) as H1.
  pose proof (Shape_LocalDone _ _ _ _ _ _ _ _ _ node opts H1 Hex' eq_refl eq_refl) as H2.
  pose proof (Shape_bystanders _ _ _ _ _ _ _ _ _ _ H2 Hatt eq_refl Hb1) as H3.
  pose proof (Shape_InitDone _ _ _ _ _ _ _ node opts H3 Hex' eq_refl eq_refl) as H4.
  pose proof (Shape_bystanders _ _ _ _ _ _ _ _ _ _ H4 Hatt eq_refl Hb2) as H5.
  pose proof (Shape_StartDone _ _ _ _ _ _ _ node ipfs gw H5 Hex' eq_refl) as H6.
  exact (Shape_bystanders _ _ _ _ _ _ _ _ _ _ H6 Hatt I Hb3).
Qed.

(** C1.  In every run in which the three phases of the controller answer
    with success, in order, possibly with signals in between, and no
    listener of ['ready'] throws, exactly one event is emitted and it is
    ['ready']; [APIAddress] is the host and
    port of the started process joined by a colon; [GatewayAddress] is the
    reported gateway address followed by ["/ipfs/"] when the process
    reports one (a non-empty string), and stays [null] when it reports
    none. *)
Theorem startup_ready env id options p w0 b0 node b1 b2 ipfs gatewayAddr b3 :
  exited p = None → fresh_in id p →
  IpfsDaemon_new env id options p = Ret tt w0 →
  Forall (λ i, bystander i = true) (b0 ++ b1 ++ b2 ++ b3)%list →
  let w := run w0 (startup_inputs b0 node b1 b2 ipfs gatewayAddr b3) in
  emitted w = [EvReady]
  ∧ APIAddress (this w) = Some (apiHost ipfs +:+ ":" +:+ apiPort ipfs)
  ∧ GatewayAddress (this w) =
      match gatewayAddr with
      | Some g => if decide (g = "") then None else Some (g +:+ "/ipfs/")
      | None => None
      end.
Proof.
  intros Hex Hfresh Hnew Hbs.
  destruct (startup_reaches _ _ _ _ _ _ node _ _ ipfs gatewayAddr _ Hex Hfresh Hnew Hbs)
    as ((Hthis & _ & _ & _ & _ & _ & Hem & _) & _).
  cbv zeta. rewrite Hthis. split; [exact Hem|]. split; [reflexivity|].
  unfold started_fields, truthy. destruct gatewayAddr as [g|]; [|reflexivity].
  destruct (decide (g = "")) as [->|Hg]; [reflexivity|].
  by rewrite bool_decide_true.
Qed.

Lemma sample_constructed_Ret :
  IpfsDaemon_new ∅ 0 (Some sample_overlay) sample_process = Ret tt sample_constructed.
Proof. by vm_compute. Qed.


Lemma sample_fresh : fresh_in 0 sample_process.
Proof. repeat constructor; done. Qed.

Lemma startup_ready_witness :
  emitted sample_ready = [EvReady]
  ∧ APIAddress (this sample_ready) = Some "127.0.0.1:5001"
  ∧ GatewayAddress (this sample_ready) = Some "/ip4/0.0.0.0/tcp/8080/ipfs/".
Proof.
  exact (startup_ready ∅ 0 (Some sample_overlay) sample_process sample_constructed
           [] sample_node [] [] sample_ipfs (Some "/ip4/0.0.0.0/tcp/8080") []
           eq_refl sample_fresh sample_constructed_Ret (Forall_nil_2 _)).
Defined.

(** ** Uncaught exceptions that ask for no shutdown *)

(** The listener of the supervisor hands such an exception to
    [logger.error]; what the logger throws leaves the listener and ends
    the process. *)
Lemma dispatch_other_attached error w :
  Attached (inst w) (proc w) → interrupt_like error = false →
  dispatch_uncaught error w =
    match open_log (proc w) with
    | inr p' => logged error p' w
    | inl e => exit_with (ExitUncaught e) w
    end.
Proof.
  intros Ha Hi. rewrite dispatch_uncaught_attached by done.
  unfold on_uncaughtException. unfold interrupt_like in Hi.
  destruct (js_match _ _); [done|].
  unfold mbind, M_bind, logger_error, mret, M_ret.
  destruct (open_log (proc w)); [reflexivity|]. by destruct w.
Qed.

Lemma step_other_fault w error :
  Attached (inst w) (proc w) → quiet w → interrupt_like error = false →
  step w (Uncaught error) =
    match open_log (proc w) with
    | inr p' => logged error p' w
    | inl e => exit_with (ExitUncaught e) w
    end.
Proof.
  intros Ha Hq Hi. unfold step. rewrite is_exited_false by apply Ha.
  rewrite dispatch_other_attached by done.
  destruct (open_log (proc w)) as [e|p'].
  - by apply drain_exited.
  - apply drain_quiet. by destruct w.
Qed.

Lemma emitted_logged error p' w : emitted (logged error p' w) = emitted w.
Proof. unfold logged. rewrite emitted_append. destruct w; cbn. apply app_nil_r. Qed.

Lemma controller_calls_logged error p' w :
  controller_calls (logged error p' w) = controller_calls w.
Proof. unfold logged. rewrite controller_calls_append. destruct w; cbn. apply app_nil_r. Qed.

(** ** Startup among signals and uncaught exceptions *)

Lemma Obs_onlooker s id ip sp ch em calls w i :
  Obs s id ip sp ch em calls w → due ch ip sp →
  onlooker i = true →
  exited (proc (step w i)) = None →
  Obs s id ip sp ch em calls (step w i).
Proof.
  intros (Hs & Hid & Ha & Hip & Hsp & Hch & Hem & Hcalls & Hrt) Hq Hi.
  assert (quiet w) as Hq' by (unfold quiet; by rewrite Hch, Hip, Hsp).
  rewrite <- Hid in Ha.
  destruct i as [| | |sig|error]; try done.
  - rewrite step_bystander by done. intros _. unfold Obs. by rewrite Hid in Ha.
  - simpl in Hi. apply negb_true_iff in Hi.
    rewrite step_other_fault by done.
    destruct (open_log (proc w)) as [e|p'] eqn:Hlog; [by destruct w|].
    intros _. unfold Obs. rewrite emitted_logged, controller_calls_logged.
    split_and!; try done; try (by destruct w).
    change (proc (logged error p' w)) with p'.
    rewrite <- Hid. by eapply open_log_attached.
Qed.

Lemma Obs_onlookers s id ip sp ch em calls w bs :
  Obs s id ip sp ch em calls w → due ch ip sp →
  Forall (λ i, onlooker i = true) bs →
  exited (proc (run w bs)) = None →
  Obs s id ip sp ch em calls (run w bs).
Proof.
  intros H Hq Hbs. revert w H.
  induction Hbs as [|i bs Hi Hbs IH]; intros w H Hex; [done|].
  rewrite run_cons in *. apply IH; [|done].
  apply Obs_onlooker; try done. by eapply alive_before.
Qed.

Lemma Obs_alive s id ip sp ch em calls w :
  Obs s id ip sp ch em calls w → is_exited w = false.
Proof. intros (_ & _ & [Hex _] & _). by apply is_exited_false. Qed.

Lemma Obs_LocalDone s id ip sp ch em calls w n o :
  Obs s id ip sp ch em calls w → due ch ip sp →
  _options s = Some o →
  Obs (set_daemon (Some n) s) id ip sp ch em
    (calls ++ [EInit n (get o "IpfsDataDir")]) (step w (LocalDone None (Some n))).
Proof.
  intros H Hq Ho. pose proof (Obs_alive _ _ _ _ _ _ _ _ H) as Hex.
  destruct H as (Hs & Hid & Ha & Hip & Hsp & Hch & Hem & Hcalls & Hrt).
  rewrite (step_LocalDone_ok w n o);
    [| done | unfold quiet; by rewrite Hch, Hip, Hsp | by rewrite Hs].
  unfold Obs. rewrite emitted_append, controller_calls_append.
  destruct w as [s' ? ? ? ? tr ? ?]; cbn in *. subst. rewrite app_nil_r. done.
Qed.

Lemma Obs_InitDone s id sp em calls w d o :
  Obs s id Pending sp AwaitInit em calls w →
  _daemon s = Some d → _options s = Some o →
  Obs s id Fulfilled (Some Pending) AwaitStart em
    (calls ++ [EStartDaemon d (get o "Flags")]) (step w (InitDone None)).
Proof.
  intros H Hd Ho. pose proof (Obs_alive _ _ _ _ _ _ _ _ H) as Hex.
  destruct H as (Hs & Hid & Ha & Hip & Hsp & Hch & Hem & Hcalls & Hrt).
  rewrite (step_InitDone_ok w d o); [| done | done | done | by rewrite Hs | by rewrite Hs].
  unfold Obs. rewrite emitted_append, controller_calls_append.
  destruct w as [s' ? ? ? ? tr ? ?]; cbn in *. subst. rewrite app_nil_r. done.
Qed.

Lemma Obs_StartDone s id ip em calls w d i gw :
  Obs s id ip (Some Pending) AwaitStart em calls w →
  _daemon s = Some d →
  Obs (started_fields i gw s) id ip (Some Fulfilled) Settled (em ++ [EvReady])
    calls (step w (StartDone None (Some i) gw)).
Proof.
  intros H Hd. pose proof (Obs_alive _ _ _ _ _ _ _ _ H) as Hex.
  destruct H as (Hs & Hid & Ha & Hip & Hsp & Hch & Hem & Hcalls & Hrt).
  rewrite (step_StartDone_ok w d i gw); [| done | done | done | by rewrite Hs | done].
  unfold Obs. rewrite emitted_append, controller_calls_append.
  destruct w as [s' ? ? ? ? tr ? ?]; cbn in *. subst. rewrite app_nil_r. done.
Qed.

(** What the constructor leaves when it completes. *)
Lemma constructed_facts env id options p w0 :
  exited p = None → fresh_in id p →
  IpfsDaemon_new env id options p = Ret tt w0 →
  Shape (mkSupervisor None None (Some (merge_options env options)) None None)
    id (proc w0) Pending None AwaitInit []
    [ELocal (get (merge_options env options) "IpfsDataDir")
            (Some (merge_options env options))] w0
  ∧ Attached id (proc w0)
  ∧ listeners (proc w0) = (listeners p ++ own_listeners id)%list.
Proof.
  intros Hex Hfresh Hnew.
  apply IpfsDaemon_new_Ret in Hnew as (fs' & file & pre & -> & Hpre).
  split_and!.
  - unfold Shape, emitted, controller_calls; cbn [this inst proc initP startP chain trace].
    rewrite omap_app, filter_app.
    destruct Hpre as [[-> _]|(d & -> & _)]; done.
  - split; [done|]. exists (listeners p). split; [done|]. apply Hfresh.
  - reflexivity.
Qed.

(** Where a successful startup leads when uncaught exceptions arrive on
    the way and the process survives them. *)
Lemma startup_survived env id options p w0 b0 node b1 b2 ipfs gw b3 :
  exited p = None → fresh_in id p →
  IpfsDaemon_new env id options p = Ret tt w0 →
  Forall (λ i, onlooker i = true) (b0 ++ b1 ++ b2 ++ b3)%list →
  let w := run w0 (startup_inputs b0 node b1 b2 ipfs gw b3) in
  let opts := merge_options env options in
  exited (proc w) = None →
  Obs (started_fields ipfs gw (mkSupervisor None None (Some opts) (Some node) None))
    id Fulfilled (Some Fulfilled) Settled [EvReady]
    [ELocal (get opts "IpfsDataDir") (Some opts);
     EInit node (get opts "IpfsDataDir");
     EStartDaemon node (get opts "Flags")] w.
Proof.
  intros Hex Hfresh Hnew Hbs.
  destruct (constructed_facts _ _ _ _ _ Hex Hfresh Hnew)
    as ((Hthis & Hinst & _ & Hip & Hsp & Hch & Hem & Hcalls & Hrt) & Hatt & _).
  apply Forall_app in Hbs as [Hb0 Hbs]. apply Forall_app in Hbs as [Hb1 Hbs].
  apply Forall_app in Hbs as [Hb2 Hb3].
  cbv zeta. set (opts := merge_options env options) in *.
  assert (Obs (mkSupervisor None None (Some opts) None None) id Pending None AwaitInit
            [] [ELocal (get opts "IpfsDataDir") (Some opts)] w0) as H0
    by (by unfold Obs).
  clear Hthis Hinst Hip Hsp Hch Hem Hcalls Hrt Hatt.
  unfold startup_inputs. rewrite run_app, run_cons, run_app, run_cons, run_app, run_cons.
  intros A7.
  pose proof (alive_before _ _ A7) as A6.
  pose proof (alive_before _ [_] A6) as A5.
  pose proof (alive_before _ _ A5) as A4.
  pose proof (alive_before _ [_] A4) as A3.
  pose proof (alive_before _ _ A3) as A2.
  pose proof (alive_before _ [_] A2) as A1.
  pose proof (Obs_onlookers _ _ _ _ _ _ _ _ _ H0 eq_refl Hb0 A1) as H1.
  pose proof (Obs_LocalDone _ _ _ _ _ _ _ _ node opts H1 eq_refl eq_refl) as H2.
  pose proof (Obs_onlookers _ _ _ _ _ _ _ _ _ H2 eq_refl Hb1 A3) as H3.
  pose proof (Obs_InitDone _ _ _ _ _ _ node opts H3 eq_refl eq_refl) as H4.
  pose proof (Obs_onlookers _ _ _ _ _ _ _ _ _ H4 eq_refl Hb2 A5) as H5.
  pose proof (Obs_StartDone _ _ _ _ _ _ node ipfs gw H5 eq_refl) as H6.
  exact (Obs_onlookers _ _ _ _ _ _ _ _ _ H6 I Hb3 A7).
Qed.

(** ** Readiness *)

Lemma Ready_shape w :
  Ready w →
  ∃ o d i gw,
    this w = started_fields i gw (mkSupervisor None None (Some o) (Some d) None)
    ∧ Attached (inst w) (proc w)
    ∧ chain w = Settled
    ∧ emitted w = [EvReady].
Proof.
  intros (env & id & options & p & w0 & b0 & node & b1 & b2 & ipfs & gw & b3
          & Hex & Hfresh & Hnew & Hbs & -> & Halive).
  destruct (startup_survived _ _ _ _ _ _ node _ _ ipfs gw _ Hex Hfresh Hnew Hbs Halive)
    as (Hthis & Hinst & Hatt & _ & _ & Hch & Hem & _).
  exists (merge_options env options), node, ipfs, gw.
  rewrite Hinst. auto.
Qed.

Lemma Ready_daemon w : Ready w → is_Some (_daemon (this w)).
Proof.
  intros (o & d & i & gw & -> & _)%Ready_shape. unfold started_fields.
  destruct (truthy gw); by eexists.
Qed.

Lemma Ready_quiet w : Ready w → quiet w.
Proof. intros (o & d & i & gw & _ & _ & Hch & _)%Ready_shape. unfold quiet. by rewrite Hch. Qed.

Lemma Ready_attached w : Ready w → Attached (inst w) (proc w).
Proof. by intros (o & d & i & gw & _ & ? & _)%Ready_shape. Qed.

(** One more input that asks for no shutdown leaves a ready supervisor
    ready, if the process survives it. *)
Lemma Ready_onlooker w i :
  Ready w → onlooker i = true → exited (proc (step w i)) = None → Ready (step w i).
Proof.
  intros (env & id & options & p & w0 & b0 & node & b1 & b2 & ipfs & gw & b3
          & Hex & Hfresh & Hnew & Hbs & -> & Halive) Hi Hstep.
  exists env, id, options, p, w0, b0, node, b1, b2, ipfs, gw, (b3 ++ [i])%list.
  assert (run w0 (startup_inputs b0 node b1 b2 ipfs gw (b3 ++ [i]))
          = step (run w0 (startup_inputs b0 node b1 b2 ipfs gw b3)) i) as Heq.
  { unfold startup_inputs, run.
    rewrite !foldl_app; simpl. rewrite !foldl_app; simpl. rewrite !foldl_app; simpl.
    by rewrite foldl_app. }
  split_and!; [done | done | done | | by rewrite Heq | exact Hstep].
  rewrite !app_assoc. apply Forall_app. split; [by rewrite <- !app_assoc|].
  by constructor.
Qed.

(** A signal leaves a ready supervisor ready. *)
Lemma Ready_step w i : Ready w → bystander i = true → Ready (step w i).
Proof.
  intros Hr Hi. apply Ready_onlooker; [done | by destruct i |].
  rewrite step_bystander; [apply (Ready_attached w Hr) | by apply Ready_attached
                          | by apply Ready_quiet | done].
Qed.

Lemma sample_Ready : Ready sample_ready.
Proof.
  exists ∅, 0, (Some sample_overlay), sample_process, sample_constructed,
    [], sample_node, [], [], sample_ipfs, (Some "/ip4/0.0.0.0/tcp/8080"), [].
  split_and!; [done | apply sample_fresh | apply sample_constructed_Ret | done | done
              | by vm_compute].
Qed.


(** ** Shutdown *)

Lemma filter_three (ls : list (ProcEvent * Listener)) :
  filter (λ el, el.1 ≠ uncaughtException)
    (filter (λ el, el.1 ≠ SIGTERM) (filter (λ el, el.1 ≠ SIGINT) ls))
  = filter (λ el, survives el.1 = true) ls.
Proof.
  rewrite !list_filter_filter. apply list_filter_iff. intros [ev l]; simpl.
  destruct ev; simpl; intuition congruence.
Qed.

Lemma handleShutdown_Some w d :
  _daemon (this w) = Some d → _handleShutdown w = Ret tt (shut_down d w).
Proof.
  intros Hd. destruct w as [s id ip sp ch tr pr rt]. destruct s, pr. simpl in Hd. subst.
  unfold _handleShutdown, shut_down, append_trace. exec.
  rewrite filter_three, <- !(assoc_L (++)%list). done.
Qed.

Lemma handleShutdown_None w :
  _daemon (this w) = None →
  _handleShutdown w =
    Throw (TypeError "Cannot read property 'stopDaemon' of null")
          (append_trace [ELog LDebug [LText "Shutting down..."]] w).
Proof.
  intros Hd. destruct w as [s id ip sp ch tr pr rt]. destruct s. simpl in Hd. subst.
  unfold _handleShutdown, append_trace. exec. done.
Qed.

(** An interrupt-like exception takes an attached supervisor down the
    path of [stop]. *)
Lemma step_interrupt w d error :
  Attached (inst w) (proc w) → chain w = Settled → _daemon (this w) = Some d →
  interrupt_like error = true →
  step w (Uncaught error) = shut_down d w.
Proof.
  intros Ha Hch Hd Hi. unfold step, is_exited. rewrite (proj1 Ha).
  rewrite dispatch_uncaught_attached by done.
  unfold on_uncaughtException. unfold interrupt_like in Hi.
  destruct (js_match _ _); [|done].
  unfold mbind, M_bind. rewrite (handleShutdown_Some w d) by done.
  apply drain_quiet. unfold quiet. destruct w; simpl in *. by subst.
Qed.

(** C5 as the specification states it fails on the sample run: after a
    first [stop()], the second does not return. *)
Lemma second_stop_throws :
  ¬ (∀ w1, stop sample_ready = Ret tt w1 → ∃ w2, stop w1 = Ret tt w2).
Proof.
  intros H.
  destruct (H (world_of (stop sample_ready))) as [w2 Hw2]; [by vm_compute|].
  vm_compute in Hw2. discriminate.
Qed.

(** C5, amended.  On a supervisor that has reached readiness the first
    [stop()] asks the controller to stop the daemon, once, and clears the
    gateway address, the API address, the configuration and the controller
    reference; the second [stop()] finds them cleared, makes no call to the
    controller and changes none of the fields nor the process, and throws
    a [TypeError] instead of returning. *)
Theorem stop_twice w :
  Ready w →
  ∃ d w1 w2,
    _daemon (this w) = Some d
    ∧ stop w = Ret tt w1
    ∧ controller_calls w1 = (controller_calls w ++ [EStopDaemon d])%list
    ∧ GatewayAddress (this w1) = None ∧ APIAddress (this w1) = None
    ∧ _options (this w1) = None ∧ _daemon (this w1) = None
    ∧ stop w1 = Throw (TypeError "Cannot read property 'stopDaemon' of null") w2
    ∧ controller_calls w2 = controller_calls w1
    ∧ this w2 = this w1 ∧ proc w2 = proc w1.
Proof.
  intros Hr. destruct (Ready_daemon w Hr) as [d Hd].
  exists d, (shut_down d w),
    (append_trace [ELog LDebug [LText "Shutting down..."]] (shut_down d w)).
  unfold stop. rewrite (handleShutdown_Some w d Hd).
  split_and!; try reflexivity.
  - exact Hd.
  - unfold shut_down. rewrite controller_calls_append. by destruct w.
  - by rewrite controller_calls_append, app_nil_r.
Qed.

Lemma stop_twice_witness :
  ∃ d w1 w2,
    _daemon (this sample_ready) = Some d
    ∧ stop sample_ready = Ret tt w1
    ∧ controller_calls w1 = (controller_calls sample_ready ++ [EStopDaemon d])%list
    ∧ GatewayAddress (this w1) = None ∧ APIAddress (this w1) = None
    ∧ _options (this w1) = None ∧ _daemon (this w1) = None
    ∧ stop w1 = Throw (TypeError "Cannot read property 'stopDaemon' of null") w2
    ∧ controller_calls w2 = controller_calls w1
    ∧ this w2 = this w1 ∧ proc w2 = proc w1.
Proof. exact (stop_twice sample_ready sample_Ready). Defined.

(** C6.  What the code does with a termination signal: on a supervisor
    that has reached readiness the listener of lines 52-53 returns the
    method [_handleShutdown] without calling it, so the delivery changes
    nothing: the daemon is not asked to stop, no field is cleared, no
    listener is removed, and the world differs from the one a [stop()]
    leaves. *)
Theorem signal_does_nothing w sig :
  Ready w →
  on_signal w = Ret (RMethod "_handleShutdown") w
  ∧ step w (Signal sig) = w
  ∧ step w (Signal sig) ≠ world_of (stop w).
Proof.
  intros Hr. split; [reflexivity|].
  assert (step w (Signal sig) = w) as ->.
  { apply step_bystander; [by apply Ready_attached | by apply Ready_quiet | done]. }
  split; [done|]. destruct (Ready_daemon w Hr) as [d Hd].
  unfold stop. rewrite (handleShutdown_Some w d Hd). simpl. intros Heq.
  rewrite Heq in Hd. discriminate Hd.
Qed.

Lemma signal_does_nothing_witness :
  on_signal sample_ready = Ret (RMethod "_handleShutdown") sample_ready
  ∧ step sample_ready (Signal INT) = sample_ready
  ∧ step sample_ready (Signal INT) ≠ world_of (stop sample_ready).
Proof. exact (signal_does_nothing sample_ready INT sample_Ready). Defined.

(** The ways an uncaught exception is handled by a supervisor that has
    reached readiness. *)
Lemma uncaught_cases w error :
  Ready w →
  ∃ d, _daemon (this w) = Some d
       ∧ stop w = Ret tt (shut_down d w)
       ∧ step w (Uncaught error)
         = if interrupt_like error then shut_down d w
           else match open_log (proc w) with
                | inr p' => logged error p' w
                | inl e => exit_with (ExitUncaught e) w
                end.
Proof.
  intros Hr. pose proof (Ready_attached w Hr) as Ha.
  pose proof (Ready_quiet w Hr) as Hq.
  destruct (Ready_daemon w Hr) as [d Hd]. exists d.
  split; [done|]. split; [by apply handleShutdown_Some|].
  destruct (interrupt_like error) eqn:Hi.
  - destruct (Ready_shape w Hr) as (_ & _ & _ & _ & _ & _ & Hch & _).
    by apply step_interrupt.
  - by apply step_other_fault.
Qed.




(** C10.  On a supervisor that has reached readiness, an uncaught
    exception leaves the world [stop()] leaves if and only if its string
    form contains ["non-zero exit code 255"]. *)
Theorem shutdown_iff_pattern w error :
  Ready w →
  (step w (Uncaught error) = world_of (stop w)
   ↔ ∃ pre post, String_of error = pre +:+ "non-zero exit code 255" +:+ post).
Proof.
  intros Hr. rewrite <- interrupt_like_iff.
  destruct (uncaught_cases w error Hr) as (d & Hd & Hstop & Hstep).
  rewrite Hstop, Hstep. simpl. destruct (interrupt_like error).
  - done.
  - split; [|done]. intros Heq. exfalso.
    assert (_daemon (this (shut_down d w)) = Some d) as Hn.
    { rewrite <- Heq. destruct (open_log (proc w)); destruct w; exact Hd. }
    simpl in Hn. congruence.
Qed.

Lemma shutdown_iff_pattern_witness :
  step sample_ready (Uncaught (TErr (mkError "Error" "non-zero exit code 255")))
  = world_of (stop sample_ready)
  ↔ ∃ pre post, String_of (TErr (mkError "Error" "non-zero exit code 255"))
                = pre +:+ "non-zero exit code 255" +:+ post.
Proof.
  exact (shutdown_iff_pattern sample_ready
           (TErr (mkError "Error" "non-zero exit code 255")) sample_Ready).
Defined.

(** C9 as the specification states it fails on the sample run: the
    process held a [SIGINT] listener of other code, which is not one of
    the three the supervisor registered, and [stop()] removes it. *)
Lemma stop_removes_foreign_listener :
  ¬ (∀ el, el ∈ listeners (proc sample_ready) → el ∉ own_listeners 0 →
           el ∈ listeners (proc (world_of (stop sample_ready)))).
Proof.
  intros H. specialize (H (SIGINT, LForeign 7)).
  assert ((SIGINT, LForeign 7) ∈ listeners (proc (world_of (stop sample_ready)))) as Hin.
  { apply H.
    - vm_compute. left.
    - unfold own_listeners. intros Hc.
      repeat (inversion Hc as [|? ? ? Hc']; subst; clear Hc; rename Hc' into Hc). }
  assert (listeners (proc (world_of (stop sample_ready)))
          = [(other_event "exit", LForeign 8)]) as Heq by (by vm_compute).
  rewrite Heq in Hin. inversion Hin as [|? ? ? Hin']; subst. inversion Hin'.
Qed.

Lemma listeners_for_survivors ev (ls : list (ProcEvent * Listener)) :
  survives ev = false →
  filter (λ el, el.1 = ev) (filter (λ el, survives el.1 = true) ls) = [].
Proof.
  intros Hev. rewrite list_filter_filter.
  induction ls as [|[ev' l] ls IH]; [done|].
  rewrite filter_cons. case_decide as H; [|done].
  simpl in H. destruct H as [-> H]. congruence.
Qed.

(** C9, amended.  A shutdown of a supervisor that has reached readiness,
    by [stop()] or by an interrupt-like uncaught exception, removes every
    listener of [SIGINT], [SIGTERM] and ['uncaughtException'] from the
    process, those of the supervisor and those of other code alike, and
    leaves the listeners of every other event in place, in order; a
    supervisor constructed afterwards therefore holds the only listener of
    each of the three events. *)
Theorem shutdown_removes_listeners w w1 :
  Ready w →
  (stop w = Ret tt w1
   ∨ ∃ error, interrupt_like error = true ∧ w1 = step w (Uncaught error)) →
  listeners (proc w1) = filter (λ el, survives el.1 = true) (listeners (proc w))
  ∧ (∀ ev, survives ev = false → listeners_for ev w1 = [])
  ∧ (∀ ev, survives ev = true → listeners_for ev w1 = listeners_for ev w)
  ∧ (∀ env id' options w2,
       IpfsDaemon_new env id' options (proc w1) = Ret tt w2 →
       ∀ ev, survives ev = false → listeners_for ev w2 = own_listener_for id' ev).
Proof.
  intros Hr Hw1. destruct (Ready_daemon w Hr) as [d Hd].
  assert (w1 = shut_down d w) as ->.
  { destruct Hw1 as [Hs|(error & Hi & ->)].
    - unfold stop in Hs. rewrite (handleShutdown_Some w d Hd) in Hs. congruence.
    - destruct (Ready_shape w Hr) as (_ & _ & _ & _ & _ & ? & Hch & _).
      by apply step_interrupt. }
  assert (listeners (proc (shut_down d w))
          = filter (λ el, survives el.1 = true) (listeners (proc w))) as Hls
    by (by destruct w as [? ? ? ? ? ? [] ?]).
  split_and!.
  - exact Hls.
  - intros ev Hev. unfold listeners_for. by rewrite Hls, listeners_for_survivors.
  - intros ev Hev. unfold listeners_for. rewrite Hls, list_filter_filter. f_equal.
    apply list_filter_iff. intros [ev' l]; simpl. split; [tauto|]. by intros ->.
  - intros env id' options w2 Hnew ev Hev.
    apply IpfsDaemon_new_Ret in Hnew as (fs' & file & pre & -> & _).
    rewrite (listeners_for_attached _ ev (listeners (proc (shut_down d w)))) by done.
    by rewrite Hls, listeners_for_survivors.
Qed.

Lemma shutdown_removes_listeners_witness :
  listeners (proc (world_of (stop sample_ready)))
  = filter (λ el, survives el.1 = true) (listeners (proc sample_ready))
  ∧ (∀ ev, survives ev = false → listeners_for ev (world_of (stop sample_ready)) = [])
  ∧ (∀ ev, survives ev = true →
           listeners_for ev (world_of (stop sample_ready)) = listeners_for ev sample_ready)
  ∧ (∀ env id' options w2,
       IpfsDaemon_new env id' options (proc (world_of (stop sample_ready))) = Ret tt w2 →
       ∀ ev, survives ev = false → listeners_for ev w2 = own_listener_for id' ev).
Proof.
  apply (shutdown_removes_listeners sample_ready (world_of (stop sample_ready)) sample_Ready).
  left. vm_compute. reflexivity.
Defined.

(** ** Failures of the repository initialisation *)

(** The supervisor of the sample run once [ipfsd.local] has answered. *)
Lemma sample_initializing_attached :
  Attached (inst (step sample_constructed (LocalDone None (Some sample_node))))
           (proc (step sample_constructed (LocalDone None (Some sample_node)))).
Proof.
  split; [by vm_compute|].
  exists [(SIGINT, LForeign 7); (other_event "exit", LForeign 8)].
  split; [by vm_compute|]. repeat constructor; done.
Qed.

(** C3.  What the code does with a failure of [init] whose string form
    does not contain ["ipfs repo needs migration"]: the callback returns
    without settling the promise, so the turn of the event loop leaves the
    world as it was: no ['error'] event, then or after any signal, and the
    chain still waits for [_initDaemon]. *)
Theorem init_failure_dropped w e bs :
  Attached (inst w) (proc w) → chain w = AwaitInit → initP w = Pending →
  js_match (Error_toString e) "ipfs repo needs migration" = None →
  Forall (λ i, bystander i = true) bs →
  init_callback (Some e) w = Ret tt w
  ∧ step w (InitDone (Some e)) = w
  ∧ emitted (run (step w (InitDone (Some e))) bs) = emitted w
  ∧ initP (run (step w (InitDone (Some e))) bs) = Pending.
Proof.
  intros Ha Hch Hip Hm Hbs.
  assert (quiet w) as Hq by (unfold quiet; by rewrite Hch).
  assert (init_callback (Some e) w = Ret tt w) as Hcb
    by (unfold init_callback; by rewrite Hm).
  assert (step w (InitDone (Some e)) = w) as Hstep.
  { unfold step, is_exited, run_callback. rewrite (proj1 Ha), Hcb. by apply drain_quiet. }
  rewrite Hstep, run_bystanders by done.
  split_and!.
  - exact Hcb.
  - reflexivity.
  - reflexivity.
  - exact Hip.
Qed.

Lemma init_failure_dropped_witness :
  let w := step sample_constructed (LocalDone None (Some sample_node)) in
  let e := mkError "Error" "permission denied" in
  init_callback (Some e) w = Ret tt w
  ∧ step w (InitDone (Some e)) = w
  ∧ emitted (run (step w (InitDone (Some e))) [Signal TERM]) = emitted w
  ∧ initP (run (step w (InitDone (Some e))) [Signal TERM]) = Pending.
Proof.
  apply (init_failure_dropped
           (step sample_constructed (LocalDone None (Some sample_node)))
           (mkError "Error" "permission denied") [Signal TERM]
           sample_initializing_attached).
  - vm_compute; reflexivity.
  - vm_compute; reflexivity.
  - vm_compute; reflexivity.
  - repeat constructor.
Defined.

Lemma opts_out_of_scope (migrationNeeded errStr : string) :
  resolve_identifier (init_callback_scope migrationNeeded errStr) "opts"
  = throw (ReferenceError "opts").
Proof. reflexivity. Qed.

(** C4.  What the code does with a failure of [init] whose string form
    contains ["ipfs repo needs migration"]: line 94 reads [opts], which is
    not in scope, so the callback throws a [ReferenceError] before the
    message is complete and before [reject] is called.  The exception is
    uncaught; the listener of the supervisor hands it to [logger.error],
    which logs it or, where the log file cannot be opened, ends the
    process.  Either way the promise of [_initDaemon] stays pending: no
    event is emitted. *)
Theorem migration_failure_throws w e :
  Attached (inst w) (proc w) → chain w = AwaitInit → initP w = Pending →
  is_Some (js_match (Error_toString e) "ipfs repo needs migration") →
  init_callback (Some e) w = Throw (ReferenceError "opts") w
  ∧ step w (InitDone (Some e))
    = match open_log (proc w) with
      | inr p' => logged (ReferenceError "opts") p' w
      | inl e' => exit_with (ExitUncaught e') w
      end
  ∧ emitted (step w (InitDone (Some e))) = emitted w
  ∧ initP (step w (InitDone (Some e))) = Pending.
Proof.
  intros Ha Hch Hip [found Hm].
  assert (quiet w) as Hq by (unfold quiet; by rewrite Hch).
  assert (init_callback (Some e) w = Throw (ReferenceError "opts") w) as Hcb.
  { unfold init_callback. rewrite Hm. unfold mbind, M_bind.
    by rewrite opts_out_of_scope. }
  assert (step w (InitDone (Some e)) = step w (Uncaught (ReferenceError "opts"))) as Heq.
  { unfold step, run_callback. by rewrite Hcb. }
  rewrite Heq, step_other_fault by done.
  split_and!.
  - exact Hcb.
  - reflexivity.
  - destruct (open_log (proc w)); [by destruct w | apply emitted_logged].
  - destruct (open_log (proc w)); by destruct w.
Qed.

Lemma migration_failure_throws_witness :
  let w := step sample_constructed (LocalDone None (Some sample_node)) in
  let e := mkError "Error" "ipfs repo needs migration" in
  init_callback (Some e) w = Throw (ReferenceError "opts") w
  ∧ step w (InitDone (Some e))
    = match open_log (proc w) with
      | inr p' => logged (ReferenceError "opts") p' w
      | inl e' => exit_with (ExitUncaught e') w
      end
  ∧ emitted (step w (InitDone (Some e))) = emitted w
  ∧ initP (step w (InitDone (Some e))) = Pending.
Proof.
  apply (migration_failure_throws
           (step sample_constructed (LocalDone None (Some sample_node)))
           (mkError "Error" "ipfs repo needs migration")
           sample_initializing_attached).
  - vm_compute; reflexivity.
  - vm_compute; reflexivity.
  - vm_compute. eexists. reflexivity.
Defined.

(** ** The data directory *)





(** The system finds a path where [path.resolve] puts it. *)
Lemma os_walk_lexical f (segs : list string) :
  ∀ cur q, os_walk f cur segs = Some q → q = foldl push_segment cur segs.
Proof.
  induction segs as [|seg segs IH]; intros cur q; simpl; [by intros [= ->]|].
  destruct (is_dir f cur); [apply IH | done].
Qed.






(** * Further properties of the code *)

(** ** The constructor, whatever it is given *)

(** When [new IpfsDaemon(options)] throws, it has registered no listener,
    called the controller for nothing and emitted nothing. *)
Theorem constructor_throw_registers_nothing env id options p e w :
  IpfsDaemon_new env id options p = Throw e w →
  listeners (proc w) = listeners p
  ∧ exited (proc w) = exited p
  ∧ controller_calls w = []
  ∧ emitted w = [].
Proof.
  unfold IpfsDaemon_new, constructor_setup, _initDaemon, fresh_world.
  destruct p as [f c lf ls ex lw]. exec.
  set (opts := merge_options env options).
  destruct (get opts "IpfsDataDir") as [| | |d| | |] eqn:Hdir;
    try (intros [= <- <-]; by split_and!).
  destruct (exists_path f c d).
  all: try destruct (mkdirp_from [] (path_resolve c d) f) as [e'|fs'] eqn:Hmk.
  all: try (intros [= <- <-]; by split_and!).
  all: destruct (get opts "LogDirectory") as [| | |ld| | |] eqn:Hlog;
    try (intros [= <- <-]; by split_and!); try done.
Qed.

Lemma constructor_throw_registers_nothing_witness :
  listeners (proc (world_of (IpfsDaemon_new ∅ 0 (Some {[ "LogDirectory" := VNull ]})
                                            sample_process)))
  = listeners sample_process
  ∧ exited (proc (world_of (IpfsDaemon_new ∅ 0 (Some {[ "LogDirectory" := VNull ]})
                                            sample_process)))
    = exited sample_process
  ∧ controller_calls (world_of (IpfsDaemon_new ∅ 0 (Some {[ "LogDirectory" := VNull ]})
                                               sample_process)) = []
  ∧ emitted (world_of (IpfsDaemon_new ∅ 0 (Some {[ "LogDirectory" := VNull ]})
                                      sample_process)) = [].
Proof.
  apply (constructor_throw_registers_nothing ∅ 0 (Some {[ "LogDirectory" := VNull ]})
           sample_process (TypeError "Path must be a string")).
  vm_compute. reflexivity.
Defined.

(** Every construction that completes adds its three listeners after the
    ones the process holds and removes none: two supervisors constructed
    one after the other, without a shutdown in between, are both called on
    every signal and on every uncaught exception. *)
Theorem constructions_accumulate env1 id1 options1 env2 id2 options2 p w1 w2 :
  IpfsDaemon_new env1 id1 options1 p = Ret tt w1 →
  IpfsDaemon_new env2 id2 options2 (proc w1) = Ret tt w2 →
  listeners (proc w2) = (listeners p ++ own_listeners id1 ++ own_listeners id2)%list
  ∧ ∀ ev, listeners_for ev w2
          = ((filter (λ el, el.1 = ev) (listeners p)).*2
               ++ own_listener_for id1 ev ++ own_listener_for id2 ev)%list.
Proof.
  intros H1 H2.
  apply IpfsDaemon_new_Ret in H1 as (fs1 & file1 & pre1 & -> & _).
  apply IpfsDaemon_new_Ret in H2 as (fs2 & file2 & pre2 & -> & _).
  cbn [proc listeners]. split; [by rewrite <- app_assoc|].
  intros ev.
  rewrite (listeners_for_attached _ ev (listeners p ++ own_listeners id1)%list) by done.
  cbn [inst]. rewrite filter_app, fmap_app, <- app_assoc. do 2 f_equal.
  unfold own_listeners. rewrite !filter_cons, filter_nil; simpl.
  destruct ev; repeat case_decide; try done.
Qed.

Lemma constructions_accumulate_witness :
  listeners (proc (world_of (IpfsDaemon_new ∅ 1 None (proc sample_constructed))))
  = (listeners sample_process ++ own_listeners 0 ++ own_listeners 1)%list
  ∧ ∀ ev, listeners_for ev (world_of (IpfsDaemon_new ∅ 1 None (proc sample_constructed)))
          = ((filter (λ el, el.1 = ev) (listeners sample_process)).*2
               ++ own_listener_for 0 ev ++ own_listener_for 1 ev)%list.
Proof.
  apply (constructions_accumulate ∅ 0 (Some sample_overlay) ∅ 1 None sample_process
           sample_constructed).
  - vm_compute; reflexivity.
  - vm_compute; reflexivity.
Defined.

(** When the configured data directory is a path that exists for the
    system, as a directory or as a file, the constructor does not call
    [mkdirp.sync] and leaves the filesystem as it is; the first effect of
    a construction that completes is the call of [ipfsd.local], and the
    construction completes whenever the log directory is a path. *)
Theorem existing_directory_untouched env id options p d :
  get (merge_options env options) "IpfsDataDir" = VStr d →
  exists_path (fs p) (cwd p) d = true →
  match IpfsDaemon_new env id options p with
  | Ret _ w0 =>
      fs (proc w0) = fs p
      ∧ trace w0 = [ELocal (VStr d) (Some (merge_options env options))]
  | Throw e w => fs (proc w) = fs p ∧ trace w = []
  end
  ∧ (∀ ld, get (merge_options env options) "LogDirectory" = VStr ld →
           ∃ w0, IpfsDaemon_new env id options p = Ret tt w0).
Proof.
  intros Hdir Hk.
  unfold IpfsDaemon_new, constructor_setup, _initDaemon, fresh_world.
  destruct p as [f c lf ls ex lw]. simpl in Hk. exec.
  set (opts := merge_options env options) in *. rewrite Hdir, Hk.
  split.
  - destruct (get opts "LogDirectory") as [| | |ld| | |] eqn:Hlog; try done.
    by rewrite Hdir.
  - intros ld ->. by eexists.
Qed.

Lemma existing_directory_untouched_witness :
  match IpfsDaemon_new ∅ 0 (Some {[ "IpfsDataDir" := VStr "/tmp" ]}) sample_process with
  | Ret _ w0 =>
      fs (proc w0) = fs sample_process
      ∧ trace w0 = [ELocal (VStr "/tmp")
                           (Some (merge_options ∅ (Some {[ "IpfsDataDir" := VStr "/tmp" ]})))]
  | Throw e w => fs (proc w) = fs sample_process ∧ trace w = []
  end
  ∧ (∀ ld, get (merge_options ∅ (Some {[ "IpfsDataDir" := VStr "/tmp" ]})) "LogDirectory"
           = VStr ld →
           ∃ w0, IpfsDaemon_new ∅ 0 (Some {[ "IpfsDataDir" := VStr "/tmp" ]}) sample_process
                 = Ret tt w0).
Proof.
  apply (existing_directory_untouched ∅ 0 (Some {[ "IpfsDataDir" := VStr "/tmp" ]})
           sample_process "/tmp").
  - vm_compute; reflexivity.
  - vm_compute; reflexivity.
Defined.

(** The data directory the supervisor works with: the [IpfsDataDir] of the
    caller's options when they have that key, whatever its value; without
    it the environment variable [IPFS_PATH] when it is set and not empty;
    and ["./ipfs"] otherwise. *)
Theorem data_directory_choice (env : gmap string string) (options : option Obj) :
  get (merge_options env options) "IpfsDataDir" =
    match options ≫= (λ o : Obj, o !! "IpfsDataDir") with
    | Some v => v
    | None =>
        match env !! "IPFS_PATH" with
        | Some dir => if decide (dir = "") then VStr "./ipfs" else VStr dir
        | None => VStr "./ipfs"
        end
    end.
Proof.
  unfold get. destruct options as [o|]; simpl.
  - rewrite merge_options_lookup. destruct (o !! "IpfsDataDir"); [done|].
    unfold defaultOptions, or_else. simpl.
    destruct (env !! "IPFS_PATH") as [dir|]; [|done]. by destruct (decide (dir = "")).
  - unfold merge_options. cbn [Object_assign].
    fold (Object_assign ∅ (Some (defaultOptions env))).
    rewrite Object_assign_lookup.
    unfold defaultOptions, or_else. simpl.
    destruct (env !! "IPFS_PATH") as [dir|]; [|done]. by destruct (decide (dir = "")).
Qed.

(** ** Failures of the controller *)

Lemma proc_drain w : proc (drain w) = proc w.
Proof.
  unfold drain. destruct (is_exited w); [done|].
  destruct w as [s id ip sp ch tr pr rt]. destruct s as [ga aa [o|] [d|] ap].
  all: unfold react_init, react_start, _startDaemon; exec.
  all: destruct ch, ip, sp as [[]|], rt; reflexivity.
Qed.







(** Where the first two phases lead when they succeed. *)
Lemma starting_reaches env id options p w0 b0 node b1 b2 :
  exited p = None → fresh_in id p →
  IpfsDaemon_new env id options p = Ret tt w0 →
  Forall (λ i, bystander i = true) (b0 ++ b1 ++ b2)%list →
  let opts := merge_options env options in
  Shape (mkSupervisor None None (Some opts) (Some node) None)
    id (proc w0) Pending None AwaitInit []
    [ELocal (get opts "IpfsDataDir") (Some opts); EInit node (get opts "IpfsDataDir")]
    (run w0 (b0 ++ LocalDone None (Some node) :: b1))
  ∧ Shape (mkSupervisor None None (Some opts) (Some node) None)
      id (proc w0) Fulfilled (Some Pending) AwaitStart []
      [ELocal (get opts "IpfsDataDir") (Some opts); EInit node (get opts "IpfsDataDir");
       EStartDaemon node (get opts "Flags")]
      (run w0 (b0 ++ LocalDone None (Some node) :: b1 ++ InitDone None :: b2))
  ∧ Attached id (proc w0).
Proof.
  intros Hex Hfresh Hnew Hbs.
  destruct (constructed_facts _ _ _ _ _ Hex Hfresh Hnew) as (H0 & Hatt & _).
  apply Forall_app in Hbs as [Hb0 Hbs]. apply Forall_app in Hbs as [Hb1 Hb2].
  cbv zeta. set (opts := merge_options env options) in *.
  assert (exited (proc w0) = None) as Hex' by apply Hatt.
  pose proof (Shape_bystanders _ _ _ _ _ _ _ _ _ _ H0 Hatt eq_refl Hb0) as H1.
  pose proof (Shape_LocalDone _ _ _ _ _ _ _ _ _ node opts H1 Hex' eq_refl eq_refl) as H2.
  pose proof (Shape_bystanders _ _ _ _ _ _ _ _ _ _ H2 Hatt eq_refl Hb1) as H3.
  pose proof (Shape_InitDone _ _ _ _ _ _ _ node opts H3 Hex' eq_refl eq_refl) as H4.
  pose proof (Shape_bystanders _ _ _ _ _ _ _ _ _ _ H4 Hatt eq_refl Hb2) as H5.
  split_and!; [|  |done].
  - by rewrite run_app, run_cons.
  - by rewrite run_app, run_cons, run_app, run_cons.
Qed.

Lemma step_StartDone_err w e ipfs gw :
  is_exited w = false → chain w = AwaitStart → startP w = Some Pending →
  step w (StartDone (Some e) ipfs gw) =
    emit (EvError (TErr e))
      (with_chain Settled (with_startP (Some (Rejected (TErr e))) w)).
Proof.
  intros Hex Hch Hsp. unfold step. rewrite Hex.
  destruct_alive w.
  unfold run_callback, startDaemon_callback, drain, react_init, react_start.
  exec. reflexivity.
Qed.

(** When the daemon fails to start, after the first two phases succeeded
    (signals may have come in between), the
    supervisor emits exactly one event, ['error'] with the failure as the
    controller gave it.  Both addresses stay [null], the controller
    reference is kept and is not asked to stop, and the listeners stay
    registered. *)
Theorem start_failure env id options p w0 b0 node b1 b2 e ipfs gatewayAddr :
  exited p = None → fresh_in id p →
  IpfsDaemon_new env id options p = Ret tt w0 →
  Forall (λ i, bystander i = true) (b0 ++ b1 ++ b2)%list →
  let w := step (run w0 (b0 ++ LocalDone None (Some node) :: b1 ++ InitDone None :: b2))
                (StartDone (Some e) ipfs gatewayAddr) in
  emitted w = [EvError (TErr e)]
  ∧ APIAddress (this w) = None ∧ GatewayAddress (this w) = None
  ∧ _daemon (this w) = Some node
  ∧ Forall (λ c, c ≠ EStopDaemon node) (controller_calls w)
  ∧ listeners (proc w) = (listeners p ++ own_listeners id)%list.
Proof.
  intros Hex Hfresh Hnew Hbs.
  destruct (starting_reaches _ _ _ _ _ b0 node b1 b2 Hex Hfresh Hnew Hbs)
    as (_ & (Hthis & Hinst & Hproc & Hip & Hsp & Hch & Hem & Hcalls & Hrt) & Hatt).
  destruct (constructed_facts _ _ _ _ _ Hex Hfresh Hnew) as (_ & _ & Hls).
  cbv zeta. set (w := run w0 _) in *.
  rewrite step_StartDone_err;
    [| unfold is_exited; by rewrite Hproc, (proj1 Hatt) | done | done].
  clearbody w. destruct w as [s ? ? ? ? tr pr ?]. unfold emitted, controller_calls in *.
  cbn in *. subst. rewrite omap_app, filter_app, Hem, Hcalls. cbn.
  split_and!; try done.
  repeat constructor; done.
Qed.

Lemma start_failure_witness :
  let w := step (run sample_constructed
                   ([] ++ LocalDone None (Some sample_node) :: [] ++ InitDone None :: []))
                (StartDone (Some (mkError "Error" "port in use")) None None) in
  emitted w = [EvError (TErr (mkError "Error" "port in use"))]
  ∧ APIAddress (this w) = None ∧ GatewayAddress (this w) = None
  ∧ _daemon (this w) = Some sample_node
  ∧ Forall (λ c, c ≠ EStopDaemon sample_node) (controller_calls w)
  ∧ listeners (proc w) = (listeners sample_process ++ own_listeners 0)%list.
Proof.
  exact (start_failure ∅ 0 (Some sample_overlay) sample_process sample_constructed
           [] sample_node [] [] (mkError "Error" "port in use") None None
           eq_refl sample_fresh sample_constructed_Ret (Forall_nil_2 _)).
Defined.

(** In a startup that succeeds the controller is called three times, in
    this order and with these arguments: [ipfsd.local] with the effective
    data directory and the whole effective configuration, unrecognised
    keys included; [init] on the controller handed over, with the same
    directory; [startDaemon] on it with the effective [Flags], which are
    [['--enable-pubsub-experiment']] when the caller gives none. *)
Theorem startup_controller_calls env id options p w0 b0 node b1 b2 ipfs gatewayAddr b3 :
  exited p = None → fresh_in id p →
  IpfsDaemon_new env id options p = Ret tt w0 →
  Forall (λ i, bystander i = true) (b0 ++ b1 ++ b2 ++ b3)%list →
  let opts := merge_options env options in
  controller_calls (run w0 (startup_inputs b0 node b1 b2 ipfs gatewayAddr b3))
  = [ELocal (get opts "IpfsDataDir") (Some opts);
     EInit node (get opts "IpfsDataDir");
     EStartDaemon node (get opts "Flags")]
  ∧ (∀ k v, options ≫= (λ o : Obj, o !! k) = Some v → opts !! k = Some v)
  ∧ (options ≫= (λ o : Obj, o !! "Flags") = None →
     get opts "Flags" = VArr [VStr "--enable-pubsub-experiment"]).
Proof.
  intros Hex Hfresh Hnew Hbs.
  destruct (startup_reaches _ _ _ _ _ _ node _ _ ipfs gatewayAddr _ Hex Hfresh Hnew Hbs)
    as ((_ & _ & _ & _ & _ & _ & _ & Hcalls & _) & _).
  cbv zeta in *. split; [exact Hcalls|]. split.
  - intros k v Hk. destruct options as [o|]; [|done]. simpl in Hk.
    by rewrite merge_options_lookup, Hk.
  - intros Hk. unfold get. destruct options as [o|]; simpl in Hk.
    + by rewrite merge_options_lookup, Hk.
    + unfold merge_options. cbn [Object_assign].
      fold (Object_assign ∅ (Some (defaultOptions env))).
      by rewrite Object_assign_lookup.
Qed.

Lemma startup_controller_calls_witness :
  let opts := merge_options ∅ (Some sample_overlay) in
  controller_calls sample_ready
  = [ELocal (get opts "IpfsDataDir") (Some opts);
     EInit sample_node (get opts "IpfsDataDir");
     EStartDaemon sample_node (get opts "Flags")]
  ∧ (∀ k v, Some sample_overlay ≫= (λ o : Obj, o !! k) = Some v → opts !! k = Some v)
  ∧ (Some sample_overlay ≫= (λ o : Obj, o !! "Flags") = None →
     get opts "Flags" = VArr [VStr "--enable-pubsub-experiment"]).
Proof.
  exact (startup_controller_calls ∅ 0 (Some sample_overlay) sample_process
           sample_constructed [] sample_node [] [] sample_ipfs
           (Some "/ip4/0.0.0.0/tcp/8080") []
           eq_refl sample_fresh sample_constructed_Ret (Forall_nil_2 _)).
Defined.

(** ** Shutdown at other moments *)





Lemma listeners_for_shut_down d w ev :
  survives ev = false → listeners_for ev (shut_down d w) = [].
Proof.
  intros Hev. unfold listeners_for.
  assert (listeners (proc (shut_down d w))
          = filter (λ el, survives el.1 = true) (listeners (proc w))) as ->
    by (by destruct w as [? ? ? ? ? ? [] ?]).
  by rewrite listeners_for_survivors.
Qed.

(** Once [stop()] has returned, the process has no listener left for
    [SIGINT], [SIGTERM] and uncaught exceptions: the next signal ends the
    process by its default action and the next uncaught exception ends it
    too, whatever its message. *)
Theorem after_stop_defaults_return w w1 :
  exited (proc w) = None →
  stop w = Ret tt w1 →
  (∀ sig, exited (proc (step w1 (Signal sig))) = Some (ExitSignal sig))
  ∧ (∀ error, exited (proc (step w1 (Uncaught error))) = Some (ExitUncaught error)).
Proof.
  intros Hex Hstop.
  assert (∃ d, w1 = shut_down d w) as [d ->].
  { unfold stop in Hstop. destruct (_daemon (this w)) as [d|] eqn:Hd.
    - exists d. rewrite (handleShutdown_Some w d Hd) in Hstop. congruence.
    - by rewrite handleShutdown_None in Hstop. }
  assert (is_exited (shut_down d w) = false) as Hex'
    by (unfold is_exited; destruct w as [? ? ? ? ? ? [] ?]; cbn in *; by subst).
  split.
  - intros sig. unfold step. rewrite Hex', proc_drain. unfold deliver_signal.
    rewrite listeners_for_shut_down by (by destruct sig). reflexivity.
  - intros error. unfold step. rewrite Hex', proc_drain. unfold dispatch_uncaught.
    rewrite listeners_for_shut_down by done. reflexivity.
Qed.

Lemma after_stop_defaults_return_witness :
  (∀ sig, exited (proc (step (world_of (stop sample_ready)) (Signal sig)))
          = Some (ExitSignal sig))
  ∧ (∀ error, exited (proc (step (world_of (stop sample_ready)) (Uncaught error)))
              = Some (ExitUncaught error)).
Proof.
  apply (after_stop_defaults_return sample_ready (world_of (stop sample_ready))).
  - vm_compute; reflexivity.
  - vm_compute; reflexivity.
Defined.

(** A [stop()] while the repository is being initialised asks the
    controller to stop and clears the controller reference; when [init]
    then succeeds, [_startDaemon] runs into the cleared reference, its
    promise is rejected and the supervisor emits ['error'] with that
    [TypeError].  The daemon is not asked to start. *)
Theorem stop_while_initializing w d :
  exited (proc w) = None → chain w = AwaitInit → initP w = Pending →
  _daemon (this w) = Some d →
  let w2 := step (world_of (stop w)) (InitDone None) in
  emitted w2
  = (emitted w ++ [EvError (TypeError "Cannot read property 'startDaemon' of null")])%list
  ∧ controller_calls w2 = (controller_calls w ++ [EStopDaemon d])%list
  ∧ chain w2 = Settled.
Proof.
  intros Hex Hch Hip Hd. cbv zeta. unfold stop. rewrite (handleShutdown_Some w d Hd).
  cbn [world_of]. destruct w as [s id ip sp ch tr pr rt]. destruct s, pr. cbn in *. subst.
  unfold step, shut_down, append_trace, run_callback, init_callback, drain, react_init,
    react_start, _startDaemon, emitted, controller_calls.
  exec. rewrite !omap_app, !filter_app. cbn. by rewrite !app_nil_r.
Qed.

Lemma stop_while_initializing_witness :
  let w2 := step (world_of (stop sample_initializing)) (InitDone None) in
  emitted w2
  = (emitted sample_initializing
       ++ [EvError (TypeError "Cannot read property 'startDaemon' of null")])%list
  ∧ controller_calls w2
    = (controller_calls sample_initializing ++ [EStopDaemon sample_node])%list
  ∧ chain w2 = Settled.
Proof.
  apply (stop_while_initializing sample_initializing sample_node).
  - vm_compute; reflexivity.
  - vm_compute; reflexivity.
  - vm_compute; reflexivity.
  - vm_compute; reflexivity.
Defined.

Lemma startDaemon_callback_no_daemon w ipfs gw :
  _daemon (this w) = None →
  startDaemon_callback None ipfs gw w
  = Throw (TypeError "Cannot read property 'gatewayAddr' of null") w.
Proof. intros Hd. destruct_world w. unfold startDaemon_callback. exec. reflexivity. Qed.

(** A [stop()] while the daemon is starting clears the controller
    reference and removes the listener of uncaught exceptions; when
    [startDaemon] then succeeds, its callback reads
    [this._daemon.gatewayAddr], throws a [TypeError] that nobody listens
    for any more, and the process ends.  No address is recorded and no
    event is emitted. *)
Theorem stop_while_starting w d ipfs gatewayAddr :
  exited (proc w) = None → chain w = AwaitStart → startP w = Some Pending →
  _daemon (this w) = Some d →
  let w2 := step (world_of (stop w)) (StartDone None ipfs gatewayAddr) in
  exited (proc w2)
  = Some (ExitUncaught (TypeError "Cannot read property 'gatewayAddr' of null"))
  ∧ emitted w2 = emitted w
  ∧ APIAddress (this w2) = None ∧ GatewayAddress (this w2) = None.
Proof.
  intros Hex Hch Hsp Hd. cbv zeta. unfold stop. rewrite (handleShutdown_Some w d Hd).
  cbn [world_of].
  assert (is_exited (shut_down d w) = false) as Hex'
    by (unfold is_exited; destruct w as [? ? ? ? ? ? [] ?]; cbn in *; by subst).
  unfold step. rewrite Hex'. unfold run_callback.
  rewrite startDaemon_callback_no_daemon by (by destruct w).
  unfold dispatch_uncaught. rewrite listeners_for_shut_down by done.
  rewrite drain_quiet by (unfold quiet; destruct w; cbn in *; by subst).
  split_and!; try reflexivity.
  destruct w; unfold emitted; cbn. by rewrite omap_app, app_nil_r.
Qed.

Lemma stop_while_starting_witness :
  let w2 := step (world_of (stop sample_starting))
                 (StartDone None (Some sample_ipfs) (Some "/ip4/0.0.0.0/tcp/8080")) in
  exited (proc w2)
  = Some (ExitUncaught (TypeError "Cannot read property 'gatewayAddr' of null"))
  ∧ emitted w2 = emitted sample_starting
  ∧ APIAddress (this w2) = None ∧ GatewayAddress (this w2) = None.
Proof.
  apply (stop_while_starting sample_starting sample_node).
  - vm_compute; reflexivity.
  - vm_compute; reflexivity.
  - vm_compute; reflexivity.
  - vm_compute; reflexivity.
Defined.

(** ** One terminal event *)

Lemma calm_refl w : calm w w.
Proof. done. Qed.

Lemma calm_trans w1 w2 w3 : calm w1 w2 → calm w2 w3 → calm w1 w3.
Proof. intros (? & ? & ?) (? & ? & ?). unfold calm. split_and!; congruence. Qed.

Lemma keeps_ret {A} (a : A) : keeps (mret a).
Proof. intros w. apply calm_refl. Qed.

Lemma keeps_throw {A} e : keeps (throw e : M A).
Proof. intros w. apply calm_refl. Qed.

Lemma keeps_bind {A B} (m : M A) (f : A → M B) :
  keeps m → (∀ a, keeps (f a)) → keeps (m ≫= f).
Proof.
  intros Hm Hf w. unfold mbind, M_bind. specialize (Hm w).
  destruct (m w) as [a w'|e w']; simpl in *; [|done].
  eapply calm_trans; [exact Hm | apply Hf].
Qed.

Lemma keeps_read {A} (f : World → A) : keeps (read f).
Proof. intros w. apply calm_refl. Qed.

Lemma keeps_assign f : keeps (assign f).
Proof. intros w. by destruct w. Qed.

Lemma calm_append_silent e w :
  silent e = true → calm w (with_trace (λ t, (t ++ [e])%list) w).
Proof.
  intros He. destruct w as [s id ip sp ch tr pr rt].
  unfold calm, emitted, starts; cbn. rewrite omap_app, filter_app, length_app.
  destruct e; try done; cbn; split_and!; try done; by rewrite ?app_nil_r, ?Nat.add_0_r.
Qed.

Lemma keeps_effect e : silent e = true → keeps (effect e).
Proof. intros He w. by apply calm_append_silent. Qed.

Lemma keeps_logger_error args : keeps (logger_error args).
Proof.
  intros w. unfold logger_error. destruct (open_log (proc w)) as [e|p']; [apply calm_refl|].
  simpl. eapply calm_trans; [|apply (calm_append_silent (ELog LError args)); reflexivity].
  by destruct w.
Qed.

Lemma keeps_deref_daemon prop : keeps (deref_daemon prop).
Proof. intros w. unfold deref_daemon. destruct (_daemon (this w)); apply calm_refl. Qed.

Lemma keeps_deref_options prop : keeps (deref_options prop).
Proof. intros w. unfold deref_options. destruct (_options (this w)); apply calm_refl. Qed.

Lemma keeps_get_prop v prop : keeps (get_prop v prop).
Proof. destruct v; first [apply keeps_ret | apply keeps_throw]. Qed.

Lemma keeps_resolve_identifier scope x : keeps (resolve_identifier scope x).
Proof.
  unfold resolve_identifier. destruct (list_find _ _) as [[? [? ?]]|];
    [apply keeps_ret | apply keeps_throw].
Qed.

Lemma keeps_process_on ev l : keeps (process_on ev l).
Proof. intros w. by destruct w. Qed.

Lemma keeps_process_removeAllListeners ev : keeps (process_removeAllListeners ev).
Proof. intros w. by destruct w. Qed.

Lemma keeps_settle_init p : keeps (settle_init p).
Proof. intros w. destruct w as [s id [] sp ch tr pr rt]; done. Qed.

Lemma keeps_settle_start p : keeps (settle_start p).
Proof. intros w. destruct w as [s id ip [[]|] ch tr pr rt]; done. Qed.

Lemma keeps_forEach {A} (body : A → M unit) l :
  (∀ x, keeps (body x)) → keeps (forEach body l).
Proof.
  intros Hb. induction l as [|x l IH]; simpl; [apply keeps_ret|].
  apply keeps_bind; [apply Hb | by intros _].
Qed.

(** One step of the proof that a statement keeps the chain as it is. *)
Ltac keeps_step :=
  first
    [ apply keeps_bind; [|intros ?]
    | apply keeps_ret | apply keeps_throw | apply keeps_read | apply keeps_assign
    | apply keeps_effect; reflexivity | apply keeps_logger_error
    | apply keeps_deref_daemon | apply keeps_deref_options | apply keeps_get_prop
    | apply keeps_resolve_identifier | apply keeps_process_on
    | apply keeps_process_removeAllListeners | apply keeps_settle_init
    | apply keeps_settle_start
    | apply keeps_forEach; intros ?
    | match goal with
      | |- keeps (match ?x with _ => _ end) => destruct x
      end ].

Lemma keeps_handleShutdown : keeps _handleShutdown.
Proof. unfold _handleShutdown, logger_debug. repeat keeps_step. Qed.

Lemma keeps_on_uncaughtException error : keeps (on_uncaughtException error).
Proof.
  unfold on_uncaughtException. apply keeps_bind; [|intros; apply keeps_ret].
  destruct (js_match _ _); [apply keeps_handleShutdown | apply keeps_logger_error].
Qed.

Lemma keeps_local_callback err node : keeps (local_callback err node).
Proof. unfold local_callback, logger_debug. repeat keeps_step. Qed.

Lemma keeps_init_callback err : keeps (init_callback err).
Proof. unfold init_callback. repeat keeps_step. Qed.

Lemma keeps_startDaemon_callback err ipfs gw : keeps (startDaemon_callback err ipfs gw).
Proof. unfold startDaemon_callback, logger_debug. repeat keeps_step. Qed.

Lemma calm_exit_with r w : calm w (exit_with r w).
Proof. by destruct w. Qed.

Lemma calm_foldl {B} (f : World → B → World) (l : list B) :
  (∀ w x, calm w (f w x)) → ∀ w, calm w (foldl f w l).
Proof.
  intros Hf. induction l as [|x l IH]; intros w; simpl; [apply calm_refl|].
  eapply calm_trans; [apply Hf | apply IH].
Qed.

Lemma calm_dispatch_uncaught error w : calm w (dispatch_uncaught error w).
Proof.
  unfold dispatch_uncaught. destruct (listeners_for _ _) eqn:Heq; [apply calm_exit_with|].
  apply calm_foldl. clear. intros w l. unfold call_uncaught_listener.
  destruct (is_exited w); [apply calm_refl|]. destruct l; try apply calm_refl.
  case_decide; [|apply calm_refl].
  pose proof (keeps_on_uncaughtException error w) as Hk.
  destruct (on_uncaughtException error w); simpl in Hk; [done|].
  eapply calm_trans; [exact Hk | apply calm_exit_with].
Qed.

Lemma calm_deliver_signal sig w : calm w (deliver_signal sig w).
Proof.
  unfold deliver_signal. destruct (listeners_for _ _) eqn:Heq; [apply calm_exit_with|].
  apply calm_foldl. clear. intros w l. rewrite call_signal_any. apply calm_refl.
Qed.

Lemma calm_run_callback cb w : keeps cb → calm w (run_callback cb w).
Proof.
  intros Hk. unfold run_callback. specialize (Hk w).
  destruct (cb w); simpl in Hk; [done|].
  eapply calm_trans; [exact Hk | apply calm_dispatch_uncaught].
Qed.

Lemma SingleShot_calm w w' : calm w w' → SingleShot w → SingleShot w'.
Proof.
  intros (Hc & He & Hs). unfold SingleShot, ready_count, error_count.
  by rewrite Hc, He, Hs.
Qed.

Lemma SingleShot_drain w : SingleShot w → SingleShot (drain w).
Proof.
  unfold drain. destruct (is_exited w); [done|].
  destruct w as [s id ip sp ch tr pr rt]. destruct s as [ga aa [o|] [d|] ap].
  all: unfold SingleShot, ready_count, error_count, react_init, react_start,
         _startDaemon, emitted, starts.
  all: exec.
  all: destruct ch, ip, sp as [[]|], rt; cbn.
  all: try (intros H; exact H).
  all: rewrite ?omap_app, ?filter_app, ?length_app; cbn.
  all: rewrite ?app_nil_r, ?Nat.add_0_r; intros [He Hs]; rewrite ?He, ?Hs; cbn.
  all: repeat case_decide; simpl; split_and?; first [done | lia].
Qed.

Lemma SingleShot_step w i : SingleShot w → SingleShot (step w i).
Proof.
  intros H. unfold step. destruct (is_exited w); [done|].
  apply SingleShot_drain. eapply SingleShot_calm; [|exact H].
  destruct i.
  - apply calm_run_callback, keeps_local_callback.
  - apply calm_run_callback, keeps_init_callback.
  - apply calm_run_callback, keeps_startDaemon_callback.
  - apply calm_deliver_signal.
  - apply calm_dispatch_uncaught.
Qed.

Lemma SingleShot_act w a : SingleShot w → SingleShot (act w a).
Proof.
  intros H. destruct a; simpl; [by apply SingleShot_step| |].
  - destruct (is_exited w); [done|].
    eapply SingleShot_calm; [apply keeps_handleShutdown | exact H].
  - destruct (is_exited w); [done|]. destruct (ready_thrower w); [done|].
    eapply SingleShot_calm; [|exact H]. by destruct w.
Qed.

(** Whatever the controller, the process and the holder of the object do
    after the construction, in any order and any number of times (callbacks
    called twice, failures after successes, uncaught exceptions, [stop()]
    at any moment, listeners of ['ready'] that throw), the supervisor
    emits ['ready'] at most once and ['error'] at most once, emits nothing
    before its chain of promises is settled, and asks the daemon to start
    at most once. *)
Theorem single_terminal_event env id options p w0 (actions : list Action) :
  IpfsDaemon_new env id options p = Ret tt w0 →
  let w := foldl act w0 actions in
  (ready_count w ≤ 1)%nat
  ∧ (error_count w ≤ 1)%nat
  ∧ (starts w ≤ 1)%nat
  ∧ (chain w ≠ Settled → emitted w = []).
Proof.
  intros Hnew.
  assert (SingleShot w0) as H0.
  { apply IpfsDaemon_new_Ret in Hnew as (fs' & file & pre & -> & Hpre).
    unfold SingleShot, emitted, starts; cbn.
    rewrite omap_app, filter_app, length_app.
    destruct Hpre as [[-> _]|(d & -> & _)]; done. }
  cbv zeta. clear Hnew. revert w0 H0.
  induction actions as [|a actions IH]; intros w0 H0; simpl.
  - unfold SingleShot in H0. unfold ready_count, error_count.
    destruct (chain w0); destruct H0 as [He Hs]; rewrite ?He; simpl.
    + split_and!; try done; lia.
    + split_and!; try done; lia.
    + destruct Hs as [Herr Hs]. split_and!; done.
  - apply IH. by apply SingleShot_act.
Qed.

Lemma single_terminal_event_witness :
  let w := foldl act sample_constructed
             [OnReady (TStr "listener failed");
              FromOutside (LocalDone None (Some sample_node));
              FromOutside (InitDone None); FromOutside (InitDone None);
              FromOutside (Uncaught (TStr "boom"));
              FromOutside (StartDone None (Some sample_ipfs) None); CallStop;
              FromOutside (StartDone None (Some sample_ipfs) None)] in
  (ready_count w ≤ 1)%nat
  ∧ (error_count w ≤ 1)%nat
  ∧ (starts w ≤ 1)%nat
  ∧ (chain w ≠ Settled → emitted w = []).
Proof.
  exact (single_terminal_event ∅ 0 (Some sample_overlay) sample_process
           sample_constructed _ sample_constructed_Ret).
Defined.

(** Both events are emitted when a listener of ['ready'] throws: the
    [catch] of line 69 follows the [then] that emits ['ready']. *)
Lemma ready_listener_throws :
  emitted (foldl act sample_constructed
             [OnReady (TStr "listener failed");
              FromOutside (LocalDone None (Some sample_node));
              FromOutside (InitDone None);
              FromOutside (StartDone None (Some sample_ipfs) None)])
  = [EvReady; EvError (TStr "listener failed")].
Proof. by vm_compute. Qed.

(** ** The interrupt pattern on [Error] objects *)

Lemma string_app_assoc (a b c : string) : (a +:+ b) +:+ c = a +:+ b +:+ c.
Proof. induction a as [|x a IH]; simpl; [done|]. by rewrite IH. Qed.

Lemma string_app_nil_inv (a b : string) : a +:+ b = "" → a = "" ∧ b = "".
Proof. destruct a; simpl; [done|]. discriminate. Qed.

Lemma js_match_Error_message e pat pre post :
  pat ≠ "" → err_message e = pre +:+ pat +:+ post →
  is_Some (js_match (Error_toString e) pat).
Proof.
  intros Hpat Hmsg. apply js_match_is_Some. unfold Error_toString.
  destruct (decide (err_name e = "")); [by eauto|].
  destruct (decide (err_message e = "")) as [Hnil|_].
  - rewrite Hnil in Hmsg. symmetry in Hmsg.
    apply string_app_nil_inv in Hmsg as [_ Hmsg].
    by apply string_app_nil_inv in Hmsg as [? _].
  - exists (err_name e +:+ ": " +:+ pre), post.
    by rewrite Hmsg, !string_app_assoc.
Qed.

(** An [Error] object whose message contains ["non-zero exit code 255"]
    shuts a ready supervisor down whatever its name is and whatever
    surrounds the phrase: the pattern is looked for in [String(error)],
    which is the name, a colon and the message. *)
Theorem interrupt_by_error_message w e pre post :
  Ready w →
  err_message e = pre +:+ "non-zero exit code 255" +:+ post →
  stop w = Ret tt (step w (Uncaught (TErr e)))
  ∧ _daemon (this (step w (Uncaught (TErr e)))) = None
  ∧ listeners_for uncaughtException (step w (Uncaught (TErr e))) = [].
Proof.
  intros Hr Hmsg.
  destruct (uncaught_cases w (TErr e) Hr) as (d & Hd & Hstop & Hstep).
  assert (interrupt_like (TErr e) = true) as Hi.
  { unfold interrupt_like. simpl.
    destruct (js_match_Error_message e "non-zero exit code 255" pre post) as [? ->]; done. }
  rewrite Hi in Hstep. rewrite Hstep. split; [done|]. split; [reflexivity|].
  by apply listeners_for_shut_down.
Qed.

Lemma interrupt_by_error_message_witness :
  let e := mkError "ChildProcessError" "ipfs daemon: non-zero exit code 255 (SIGINT)" in
  stop sample_ready = Ret tt (step sample_ready (Uncaught (TErr e)))
  ∧ _daemon (this (step sample_ready (Uncaught (TErr e)))) = None
  ∧ listeners_for uncaughtException (step sample_ready (Uncaught (TErr e))) = [].
Proof.
  exact (interrupt_by_error_message sample_ready
           (mkError "ChildProcessError" "ipfs daemon: non-zero exit code 255 (SIGINT)")
           "ipfs daemon: " " (SIGINT)" sample_Ready eq_refl).
Defined.

(** ** The client after a shutdown *)

(** After a successful startup the operations of the client built for the
    reported host and port are on the supervisor; [stop()] clears the two
    addresses but leaves those operations where they are. *)
Theorem api_client_outlives_stop env id options p w0 b0 node b1 b2 ipfs gatewayAddr b3 :
  exited p = None → fresh_in id p →
  IpfsDaemon_new env id options p = Ret tt w0 →
  Forall (λ i, bystander i = true) (b0 ++ b1 ++ b2 ++ b3)%list →
  let w := run w0 (startup_inputs b0 node b1 b2 ipfs gatewayAddr b3) in
  api (this w) = Some (IpfsApi (apiHost ipfs) (apiPort ipfs))
  ∧ ∃ w1, stop w = Ret tt w1
          ∧ api (this w1) = Some (IpfsApi (apiHost ipfs) (apiPort ipfs))
          ∧ APIAddress (this w1) = None ∧ GatewayAddress (this w1) = None.
Proof.
  intros Hex Hfresh Hnew Hbs.
  destruct (startup_reaches _ _ _ _ _ _ node _ _ ipfs gatewayAddr _ Hex Hfresh Hnew Hbs)
    as ((Hthis & _) & _).
  cbv zeta in *. set (w := run w0 _) in *. clearbody w.
  assert (api (this w) = Some (IpfsApi (apiHost ipfs) (apiPort ipfs))) as Hapi
    by (rewrite Hthis; unfold started_fields; by destruct (truthy gatewayAddr)).
  assert (_daemon (this w) = Some node) as Hd
    by (rewrite Hthis; unfold started_fields; by destruct (truthy gatewayAddr)).
  split; [exact Hapi|]. exists (shut_down node w).
  split; [by apply handleShutdown_Some|]. by destruct w.
Qed.

Lemma api_client_outlives_stop_witness :
  api (this sample_ready) = Some (IpfsApi "127.0.0.1" "5001")
  ∧ ∃ w1, stop sample_ready = Ret tt w1
          ∧ api (this w1) = Some (IpfsApi "127.0.0.1" "5001")
          ∧ APIAddress (this w1) = None ∧ GatewayAddress (this w1) = None.
Proof.
  exact (api_client_outlives_stop ∅ 0 (Some sample_overlay) sample_process
           sample_constructed [] sample_node [] [] sample_ipfs
           (Some "/ip4/0.0.0.0/tcp/8080") []
           eq_refl sample_fresh sample_constructed_Ret (Forall_nil_2 _)).
Defined.
